(** * Dead-constant elimination pass of SPIRV-Tools

    A shallow embedding of [EliminateDeadConstantPass::Process]
    (source/opt/eliminate_dead_constant_pass.cpp) and the properties of
    its three phases: use counting, worklist propagation, deletion.

    Instructions live in a module, a list; an [ir::Instruction*] is the
    position of the instruction in that list, so that two instructions
    with the same contents are still two different pointers.  The hash
    containers of the source are stdpp's [gmap] and [gset]. *)

From stdpp Require Import base option list sets gmap fin_sets fin_maps.

Set Default Proof Using "Type".
#[local] Set Warnings "-clear-no-such-hyp".

(** ** Data model *)

(** Modelled from the spec: the opcode tags.  The header that declares
    [SpvOp] is not part of the sources at hand; the constructors below are
    the opcodes the pass and its classifiers tell apart, [SpvOpOther]
    stands for every remaining opcode (loads, stores, functions, ...). *)
Inductive SpvOp : Type :=
  | SpvOpNop
  | SpvOpSourceContinued
  | SpvOpSource
  | SpvOpSourceExtension
  | SpvOpName
  | SpvOpMemberName
  | SpvOpString
  | SpvOpModuleProcessed
  | SpvOpConstantTrue
  | SpvOpConstantFalse
  | SpvOpConstant
  | SpvOpConstantComposite
  | SpvOpConstantSampler
  | SpvOpConstantNull
  | SpvOpSpecConstantTrue
  | SpvOpSpecConstantFalse
  | SpvOpSpecConstant
  | SpvOpSpecConstantComposite
  | SpvOpSpecConstantOp
  | SpvOpDecorate
  | SpvOpMemberDecorate
  | SpvOpDecorationGroup
  | SpvOpGroupDecorate
  | SpvOpGroupMemberDecorate
  | SpvOpOther (code : nat).

#[global] Instance SpvOp_eq_dec : EqDecision SpvOp.
Proof. solve_decision. Defined.

(** Modelled from the spec: the operand tags.  An operand is an
    identifier reference ([SPV_OPERAND_TYPE_ID]) or a non-reference value:
    a literal, or the sub-opcode embedded in a specialization constant
    operation. *)
Inductive spv_operand_type_t : Type :=
  | SPV_OPERAND_TYPE_ID
  | SPV_OPERAND_TYPE_LITERAL_INTEGER
  | SPV_OPERAND_TYPE_LITERAL_STRING
  | SPV_OPERAND_TYPE_SPEC_CONSTANT_OP_NUMBER.

#[global] Instance spv_operand_type_eq_dec : EqDecision spv_operand_type_t.
Proof. solve_decision. Defined.

(** An operand with its tag and its first word, what
    [GetSingleWordInOperand] reads. *)
Record Operand : Type := mkOperand {
  type : spv_operand_type_t;
  word : nat
}.

(** Modelled from the spec: an instruction is an opcode, a result
    identifier (0 when it defines nothing, as [result_id()] answers) and
    its ordered in-operands. *)
Record Instruction : Type := mkInstruction {
  opcode : SpvOp;
  result_id : nat;
  in_operands : list Operand
}.

(** What [ToNop] leaves of a killed instruction. *)
Definition nop : Instruction := mkInstruction SpvOpNop 0 [].

#[global] Instance Instruction_inhabited : Inhabited Instruction := populate nop.

Abbreviation Module := (list Instruction).

(** Dereferencing an instruction pointer. *)
Definition deref (m : Module) (p : nat) : Instruction := m !!! p.

(** ** Opcode classification *)

(** Modelled from the spec: [classify(opcode)], the metadata classes of
    reflect.h. *)
Inductive OpClass : Type := Annotation | Debug1 | Debug2 | Debug3 | Other.

Definition classify (op : SpvOp) : OpClass :=
  match op with
  | SpvOpDecorate | SpvOpMemberDecorate | SpvOpDecorationGroup
  | SpvOpGroupDecorate | SpvOpGroupMemberDecorate => Annotation
  | SpvOpSourceContinued | SpvOpSource | SpvOpSourceExtension
  | SpvOpString => Debug1
  | SpvOpName | SpvOpMemberName => Debug2
  | SpvOpModuleProcessed => Debug3
  | _ => Other
  end.

Definition IsAnnotationInst (op : SpvOp) : bool :=
  match classify op with Annotation => true | _ => false end.
Definition IsDebug1Inst (op : SpvOp) : bool :=
  match classify op with Debug1 => true | _ => false end.
Definition IsDebug2Inst (op : SpvOp) : bool :=
  match classify op with Debug2 => true | _ => false end.
Definition IsDebug3Inst (op : SpvOp) : bool :=
  match classify op with Debug3 => true | _ => false end.

(** The test both lambdas of [Process] make on a user's opcode. *)
Definition is_metadata (op : SpvOp) : bool :=
  IsAnnotationInst op || IsDebug1Inst op || IsDebug2Inst op || IsDebug3Inst op.

(** Modelled from the spec: the opcodes of constant-defining
    instructions, scalar or composite, plain or specialization. *)
Definition IsConstantInst (op : SpvOp) : bool :=
  match op with
  | SpvOpConstantTrue | SpvOpConstantFalse | SpvOpConstant
  | SpvOpConstantComposite | SpvOpConstantSampler | SpvOpConstantNull
  | SpvOpSpecConstantTrue | SpvOpSpecConstantFalse | SpvOpSpecConstant
  | SpvOpSpecConstantComposite | SpvOpSpecConstantOp => true
  | _ => false
  end.

(** The three cases of the [switch] in the worklist loop. *)
Definition propagates (op : SpvOp) : bool :=
  match op with
  | SpvOpConstantComposite | SpvOpSpecConstantComposite
  | SpvOpSpecConstantOp => true
  | _ => false
  end.

(** ** The def-use index *)

Definition is_id_use (id : nat) (op : Operand) : bool :=
  bool_decide (type op = SPV_OPERAND_TYPE_ID) && bool_decide (word op = id).

(** Positions, counted from [j], of the operands that reference [id]. *)
Fixpoint id_positions (j id : nat) (ops : list Operand) : list nat :=
  match ops with
  | [] => []
  | op :: ops' =>
      (if is_id_use id op then [j] else []) ++ id_positions (S j) id ops'
  end.

(** Modelled from the spec: [for_each_use(id, visit)] of the def-use
    index enumerates every (user, operand position) pair that references
    [id]; the list is the sequence of calls of the visitor. *)
Definition ForEachUse (m : Module) (id : nat) : list (nat * nat) :=
  u ← seq 0 (length m);
  (λ j, (u, j)) <$> id_positions 0 id (in_operands (deref m u)).

(** Modelled from the spec: [ForEachUser] calls the visitor once per
    instruction that references the result of [def]. *)
Definition ForEachUser (m : Module) (def : nat) : list nat :=
  filter (λ u, id_positions 0 (result_id (deref m def))
                 (in_operands (deref m u)) ≠ [])
         (seq 0 (length m)).

(** Modelled from the spec: [get_definition(id)], the instruction whose
    result identifier is [id], if there is one; identifier 0 is no
    identifier. *)
Definition GetDef (m : Module) (id : nat) : option nat :=
  if decide (id = 0) then None
  else fst <$> list_find (λ inst, result_id inst = id) m.

(** Modelled from the spec: [enumerate_constants(module)], in module
    order. *)
Definition GetConstants (m : Module) : list nat :=
  filter (λ c, IsConstantInst (opcode (deref m c)) = true) (seq 0 (length m)).

(** ** Outcome of a computation that may hit [SPIRV_ASSERT] *)

(** Modelled from the spec: the macro lives in log.h, which is not among
    the sources at hand; a failed assertion ends the pass for good, it is
    not a status the caller gets back. *)

Inductive Result (A : Type) : Type :=
  | Ok (a : A)
  | AssertionFailure.
Arguments Ok {A} a.
Arguments AssertionFailure {A}.

Definition bind {A B} (r : Result A) (k : A → Result B) : Result B :=
  match r with
  | Ok a => k a
  | AssertionFailure => AssertionFailure
  end.

(** The [for] loop over the operands, stopping at a failed assertion. *)
Fixpoint for_each {A S} (f : S → A → Result S) (s : S) (l : list A) : Result S :=
  match l with
  | [] => Ok s
  | a :: l' => bind (f s a) (λ s', for_each f s' l')
  end.

(** ** Phase 1: use counts and the initial working list *)

(** The local containers of [Process] that the loop works on. *)
Record PassState : Type := mkState {
  use_counts : gmap nat nat;
  working_list : gset nat;
  dead_consts : gset nat
}.

(** The visitor of the first [ForEachUse]: uses by annotation and debug
    instructions do not count. *)
Definition count_visit (m : Module) (count : nat) (use : nat * nat) : nat :=
  let op := opcode (deref m use.1) in
  if negb (is_metadata op) then S count else count.

Definition count_uses (m : Module) (const_id : nat) : nat :=
  foldl (count_visit m) 0 (ForEachUse m const_id).

(** Body of the loop over [constants]. *)
Definition count_constant (m : Module) (st : PassState) (c : nat) : PassState :=
  let const_id := result_id (deref m c) in
  let count := count_uses m const_id in
  mkState (<[c := count]> (use_counts st))
          (if decide (count = 0) then {[c]} ∪ working_list st
           else working_list st)
          (dead_consts st).

Definition initial_state (m : Module) (constants : list nat) : PassState :=
  foldl (count_constant m) (mkState ∅ ∅ ∅) constants.

(** ** Phase 2: the worklist loop *)

(** One turn of the inner [for] loop, on in-operand [op]. *)
Definition visit_operand (m : Module) (st : PassState) (op : Operand)
    : Result PassState :=
  if decide (type op ≠ SPV_OPERAND_TYPE_ID) then Ok st
  else
    let operand_id := word op in
    match GetDef m operand_id with
    | None => Ok st
    | Some def_inst =>
        match use_counts st !! def_inst with
        | None => Ok st
        | Some n =>
            if decide (n = 0) then AssertionFailure
            else
              let n' := n - 1 in
              Ok (mkState (<[def_inst := n']> (use_counts st))
                          (if decide (n' = 0)
                           then {[def_inst]} ∪ working_list st
                           else working_list st)
                          (dead_consts st))
        end
    end.

(** One iteration of the [while] loop, for the instruction [inst] drawn
    from the working list. *)
Definition loop_body (m : Module) (st : PassState) (inst : nat)
    : Result PassState :=
  bind (if propagates (opcode (deref m inst))
        then for_each (visit_operand m) st (in_operands (deref m inst))
        else Ok st)
       (λ st1, Ok (mkState (use_counts st1)
                           (working_list st1 ∖ {[inst]})
                           ({[inst]} ∪ dead_consts st1))).

(** The runs of the loop.  [*working_list.begin()] of an unordered set is
    any of its members. *)
Inductive loop_run (m : Module) : PassState → Result PassState → Prop :=
  | loop_exit st :
      working_list st = ∅ → loop_run m st (Ok st)
  | loop_iterate st inst st1 r :
      inst ∈ working_list st →
      loop_body m st inst = Ok st1 →
      loop_run m st1 r →
      loop_run m st r
  | loop_abort st inst :
      inst ∈ working_list st →
      loop_body m st inst = AssertionFailure →
      loop_run m st AssertionFailure.

(** [n] successful iterations in a row. *)
Inductive loop_steps (m : Module) : nat → PassState → PassState → Prop :=
  | steps_zero st : loop_steps m 0 st st
  | steps_succ n st inst st1 st2 :
      inst ∈ working_list st →
      loop_body m st inst = Ok st1 →
      loop_steps m n st1 st2 →
      loop_steps m (S n) st st2.

(** The loop as a function: it draws the first member of the set, [fuel]
    bounds the iterations and [None] is fuel running out. *)
Fixpoint loop (fuel : nat) (m : Module) (st : PassState)
    : option (Result PassState) :=
  match elements (working_list st) with
  | [] => Some (Ok st)
  | inst :: _ =>
      match fuel with
      | 0 => None
      | S fuel' =>
          match loop_body m st inst with
          | Ok st1 => loop fuel' m st1
          | AssertionFailure => Some AssertionFailure
          end
      end
  end.

(** ** Phase 3: dead metadata, deletion, status *)

(** The visitor of [ForEachUser]. *)
Definition collect_visit (m : Module) (dead_others : gset nat) (user : nat)
    : gset nat :=
  if is_metadata (opcode (deref m user)) then {[user]} ∪ dead_others
  else dead_others.

Definition collect_dead_others (m : Module) (dead : list nat) : gset nat :=
  foldl (λ acc dc, foldl (collect_visit m) acc (ForEachUser m dc)) ∅ dead.

(** Modelled from the spec: [kill_instruction] removes one instruction;
    the slot stays, as a no-op, and the def-use index, being read off the
    module, follows. *)
Definition KillInst (m : Module) (inst : nat) : Module := <[inst := nop]> m.

(** Modelled from the spec: [kill_definition(id)] removes the instruction
    that defines [id], if any. *)
Definition KillDef (m : Module) (id : nat) : Module :=
  match GetDef m id with
  | Some def => KillInst m def
  | None => m
  end.

Inductive Status : Type := Failure | SuccessWithChange | SuccessWithoutChange.

#[global] Instance Status_eq_dec : EqDecision Status.
Proof. solve_decision. Defined.

(** The loop [for (auto* dc : dead_consts) KillDef(dc->result_id())]:
    the identifier is read from the instruction as it is when its turn
    comes.  [kill_def_calls] lists the identifiers handed to [KillDef],
    [kill_dead_consts] is the module left behind. *)
Fixpoint kill_def_calls (m : Module) (dl : list nat) : list nat :=
  match dl with
  | [] => []
  | dc :: dl' =>
      let id := result_id (deref m dc) in
      id :: kill_def_calls (KillDef m id) dl'
  end.

Fixpoint kill_dead_consts (m : Module) (dl : list nat) : Module :=
  match dl with
  | [] => m
  | dc :: dl' => kill_dead_consts (KillDef m (result_id (deref m dc))) dl'
  end.

(** What one call of [Process] computes, asks of the mutator and leaves
    behind. *)
Record Outcome : Type := mkOutcome {
  status : Status;
  dead_set : gset nat;
  dead_others : gset nat;
  killed_defs : list nat;
  killed_insts : list nat;
  module_after : Module
}.

(** Everything after the loop, for given iteration orders [dl] and [ol]
    of the two final sets. *)
Definition finish (m : Module) (dead : gset nat) (dl ol : list nat) : Outcome :=
  let others := collect_dead_others m dl in
  let m1 := kill_dead_consts m dl in
  let m2 := foldl KillInst m1 ol in
  mkOutcome (if decide (dead = ∅) then SuccessWithoutChange
             else SuccessWithChange)
            dead others (kill_def_calls m dl) ol m2.

(** The executions of [Process]: any enumeration of the constants, any
    run of the loop, any iteration order of the unordered sets. *)
Inductive Process_run (m : Module) : Result Outcome → Prop :=
  | Process_ok constants st dl ol :
      constants ≡ₚ GetConstants m →
      loop_run m (initial_state m constants) (Ok st) →
      dl ≡ₚ elements (dead_consts st) →
      ol ≡ₚ elements (collect_dead_others m dl) →
      Process_run m (Ok (finish m (dead_consts st) dl ol))
  | Process_abort constants :
      constants ≡ₚ GetConstants m →
      loop_run m (initial_state m constants) AssertionFailure →
      Process_run m AssertionFailure.

(** [Process] as a function: module order, first member first. *)
Definition Process (m : Module) : option (Result Outcome) :=
  let constants := GetConstants m in
  match loop (length constants) m (initial_state m constants) with
  | None => None
  | Some AssertionFailure => Some AssertionFailure
  | Some (Ok st) =>
      let dl := elements (dead_consts st) in
      Some (Ok (finish m (dead_consts st) dl
                  (elements (collect_dead_others m dl))))
  end.

(** ** Scenarios *)

Definition ID (w : nat) : Operand := mkOperand SPV_OPERAND_TYPE_ID w.
Definition LIT (w : nat) : Operand := mkOperand SPV_OPERAND_TYPE_LITERAL_INTEGER w.

(** Scenario C: a dead composite over a scalar. *)
Definition scenario_C : Module :=
  [ mkInstruction SpvOpConstant 1 [LIT 1];
    mkInstruction SpvOpConstantComposite 2 [ID 1] ].


(** ** Quantities the proofs follow *)

(** Non-metadata uses of [id] inside the one instruction [u]. *)
Definition real_uses (m : Module) (id u : nat) : nat :=
  if is_metadata (opcode (deref m u)) then 0
  else length (id_positions 0 id (in_operands (deref m u))).

(** The operand [op] makes [visit_operand] reach the entry of [d]. *)
Definition targets (m : Module) (d : nat) (op : Operand) : bool :=
  bool_decide (type op = SPV_OPERAND_TYPE_ID)
  && bool_decide (GetDef m (word op) = Some d).

(** How often the operands [ops] reach the entry of [d]. *)
Definition hits (m : Module) (d : nat) (ops : list Operand) : nat :=
  length (filter (λ op, targets m d op = true) ops).

(** The operands the loop body walks over for [inst]. *)
Definition walked (m : Module) (inst : nat) : list Operand :=
  if propagates (opcode (deref m inst)) then in_operands (deref m inst) else [].

(** Uses of [d] given back once every member of [D] has been processed. *)
Definition released (m : Module) (D : gset nat) (d : nat) : nat :=
  sum_list_with (λ u, if decide (u ∈ D) then hits m d (walked m u) else 0)
                (seq 0 (length m)).

(** A set that contains every constant all of whose counted uses it gives
    back. *)
Definition closed (m : Module) (S : gset nat) : Prop :=
  ∀ d, d ∈ GetConstants m →
       count_uses m (result_id (deref m d)) ≤ released m S d → d ∈ S.

(** The loop invariant. *)
Record Inv (m : Module) (st : PassState) : Prop := mkInv {
  inv_counts : ∀ d,
    use_counts st !! d =
      if decide (d ∈ GetConstants m)
      then Some (count_uses m (result_id (deref m d))
                 - released m (dead_consts st) d)
      else None;
  inv_zero : ∀ d,
    d ∈ working_list st ∪ dead_consts st ↔
    d ∈ GetConstants m ∧
    count_uses m (result_id (deref m d)) = released m (dead_consts st) d;
  inv_disjoint : working_list st ## dead_consts st;
  inv_least : ∀ S, closed m S → working_list st ∪ dead_consts st ⊆ S
}.

(** Instruction [u] has an operand that references the result of [c]. *)
Definition refers_to (m : Module) (u c : nat) : Prop :=
  ∃ op, op ∈ in_operands (deref m u) ∧ is_id_use (result_id (deref m c)) op = true.

(** Modules as the binary format allows them: result identifiers are
    unique, a constant has one, and only the three propagating opcodes
    carry identifier operands among the constants. *)
Definition unique_ids (m : Module) : Prop :=
  ∀ i j, i < length m → j < length m →
         result_id (deref m i) = result_id (deref m j) →
         result_id (deref m i) ≠ 0 → i = j.

Definition constants_well_formed (m : Module) : Prop :=
  ∀ c, c ∈ GetConstants m →
       result_id (deref m c) ≠ 0 ∧
       (propagates (opcode (deref m c)) = false →
        ∀ op, op ∈ in_operands (deref m c) → type op ≠ SPV_OPERAND_TYPE_ID).

Definition wf_module (m : Module) : Prop :=
  unique_ids m ∧ constants_well_formed m.

(** The module with the instructions of [K] turned into no-ops. *)
Definition mask (K : gset nat) (m : Module) : Module :=
  imap (λ i inst, if decide (i ∈ K) then nop else inst) m.

(** The loop following a given schedule of draws; [None] when the
    schedule names an instruction that is not in the working list, or
    stops before the list is empty. *)
Fixpoint loop_along (schedule : list nat) (m : Module) (st : PassState)
    : option (Result PassState) :=
  match schedule with
  | [] => if decide (working_list st = ∅) then Some (Ok st) else None
  | inst :: rest =>
      if decide (inst ∈ working_list st) then
        match loop_body m st inst with
        | Ok st1 => loop_along rest m st1
        | AssertionFailure => Some AssertionFailure
        end
      else None
  end.

(** [wf_module] as a check that runs. *)
Definition check_ids (m : Module) : bool :=
  bool_decide (NoDup (filter (λ id, id ≠ 0) (result_id <$> m))).

Definition check_constant (inst : Instruction) : bool :=
  negb (IsConstantInst (opcode inst))
  || (negb (bool_decide (result_id inst = 0))
      && (propagates (opcode inst)
          || forallb (λ op, negb (bool_decide (type op = SPV_OPERAND_TYPE_ID)))
                     (in_operands inst))).

Definition wf_moduleb (m : Module) : bool :=
  check_ids m && forallb check_constant m.

(** ** More scenarios *)

(** Scenario A: one constant nobody uses. *)
Definition scenario_A : Module :=
  [ mkInstruction SpvOpConstant 1 [LIT 42] ].

(** Scenario B: a composite over the same scalar twice, stored somewhere. *)
Definition scenario_B : Module :=
  [ mkInstruction SpvOpConstant 1 [LIT 1];
    mkInstruction SpvOpConstantComposite 2 [ID 1; ID 1];
    mkInstruction (SpvOpOther 62) 0 [ID 7; ID 2] ].

(** Scenario D with a second, dead and undecorated, constant. *)
Definition scenario_D : Module :=
  [ mkInstruction SpvOpConstant 1 [LIT 1];
    mkInstruction SpvOpDecorate 0 [ID 1; LIT 0];
    mkInstruction SpvOpConstant 2 [LIT 5] ].

(** Scenario E: a constant that only a debug name mentions. *)
Definition scenario_E : Module :=
  [ mkInstruction SpvOpConstant 1 [LIT 1];
    mkInstruction SpvOpName 0
      [ID 1; mkOperand SPV_OPERAND_TYPE_LITERAL_STRING 120] ].

(** A decoration group applied to a dead constant [%1] and to a constant
    [%2] that a store keeps alive. *)
Definition shared_decoration : Module :=
  [ mkInstruction SpvOpConstant 1 [LIT 1];
    mkInstruction SpvOpConstant 2 [LIT 2];
    mkInstruction (SpvOpOther 62) 0 [ID 7; ID 2];
    mkInstruction SpvOpGroupDecorate 0 [ID 9; ID 1; ID 2];
    mkInstruction SpvOpDecorationGroup 9 [] ].

(** A specialization constant operation, with its sub-opcode, over two
    scalars. *)
Definition spec_op_module : Module :=
  [ mkInstruction SpvOpSpecConstant 1 [LIT 3];
    mkInstruction SpvOpSpecConstant 2 [LIT 4];
    mkInstruction SpvOpSpecConstantOp 3
      [mkOperand SPV_OPERAND_TYPE_SPEC_CONSTANT_OP_NUMBER 1; ID 1; ID 2] ].

(** The metadata clean-up as the specification words it (P3): an
    annotation or debug instruction all of whose referenced constants are
    dead is in the dead-metadata set, one that references a live constant
    is not. *)
Definition metadata_cleanup_as_stated (m : Module) (o : Outcome) : Prop :=
  ∀ u, u < length m → is_metadata (opcode (deref m u)) = true →
    ((∀ c, c ∈ GetConstants m → refers_to m u c → c ∈ dead_set o) →
     u ∈ dead_others o) ∧
    ((∃ c, c ∈ GetConstants m ∧ refers_to m u c ∧ c ∉ dead_set o) →
     u ∉ dead_others o).

(** [u] is a counted user of the constant [d]: an instruction that is
    neither annotation nor debug and references the result of [d]. *)
Definition feeds (m : Module) (u d : nat) : Prop :=
  is_metadata (opcode (deref m u)) = false ∧
  ∃ index, (u, index) ∈ ForEachUse m (result_id (deref m d)).

(** A composite that names itself, and two composites that name each
    other. *)
Definition self_reference : Module :=
  [ mkInstruction SpvOpConstantComposite 1 [ID 1] ].

Definition mutual_reference : Module :=
  [ mkInstruction SpvOpConstantComposite 1 [ID 2];
    mkInstruction SpvOpConstantComposite 2 [ID 1];
    mkInstruction SpvOpConstant 3 [LIT 0] ].

(** * Lemmas *)

(** ** The def-use index *)

Lemma deref_lookup (m : Module) i inst : m !! i = Some inst → deref m i = inst.
Proof. intros H. unfold deref. by rewrite (list_lookup_total_correct _ _ _ H). Qed.

Lemma lookup_deref (m : Module) i : i < length m → m !! i = Some (deref m i).
Proof.
  intros H. destruct (lookup_lt_is_Some_2 m i H) as [x Hx].
  by rewrite (deref_lookup _ _ _ Hx).
Qed.

Lemma elem_of_GetConstants m c :
  c ∈ GetConstants m ↔ c < length m ∧ IsConstantInst (opcode (deref m c)) = true.
Proof.
  unfold GetConstants. rewrite list_elem_of_filter, elem_of_seq. intuition lia.
Qed.

Lemma GetConstants_lt m c : c ∈ GetConstants m → c < length m.
Proof. by intros [? _]%elem_of_GetConstants. Qed.

Lemma NoDup_GetConstants m : NoDup (GetConstants m).
Proof. apply NoDup_filter, NoDup_seq. Qed.

Lemma GetDef_Some m id d :
  GetDef m id = Some d → id ≠ 0 ∧ d < length m ∧ result_id (deref m d) = id.
Proof.
  unfold GetDef. case_decide; [done|].
  destruct (list_find _ m) as [[i x]|] eqn:E; simpl; [|done].
  intros [= <-]. apply list_find_Some in E as (Hl & Hx & _).
  split; [done|]. split; [by eapply lookup_lt_Some|].
  by rewrite (deref_lookup _ _ _ Hl).
Qed.

Lemma GetDef_unique m d :
  unique_ids m → d < length m → result_id (deref m d) ≠ 0 →
  GetDef m (result_id (deref m d)) = Some d.
Proof.
  intros Hu Hd Hid. unfold GetDef. case_decide; [done|].
  destruct (list_find _ m) as [[i x]|] eqn:E; simpl.
  - apply list_find_Some in E as (Hl & Hx & _).
    f_equal. apply Hu; [by eapply lookup_lt_Some|done| |].
    + by rewrite (deref_lookup _ _ _ Hl).
    + rewrite (deref_lookup _ _ _ Hl). congruence.
  - apply list_find_None in E. rewrite Forall_forall in E.
    exfalso. eapply E; [|reflexivity].
    apply list_elem_of_lookup. exists d. by apply lookup_deref.
Qed.

Lemma id_positions_spec ops id j0 j :
  j ∈ id_positions j0 id ops ↔
  ∃ k op, j = j0 + k ∧ ops !! k = Some op ∧ is_id_use id op = true.
Proof.
  revert j0. induction ops as [|op ops IH]; intros j0; simpl.
  - split; [by intros ?%elem_of_nil|]. by intros (k & op & _ & ? & _).
  - rewrite elem_of_app, IH. split.
    + intros [H|(k & op' & -> & Hk & Hu)].
      * destruct (is_id_use id op) eqn:E; [|by apply elem_of_nil in H].
        apply list_elem_of_singleton in H as ->. exists 0, op.
        split; [lia|done].
      * exists (S k), op'. split; [lia|done].
    + intros ([|k] & op' & -> & Hk & Hu); simpl in Hk.
      * injection Hk as ->. left. rewrite Hu. apply list_elem_of_singleton. lia.
      * right. exists k, op'. split; [lia|done].
Qed.

Lemma id_positions_NoDup ops id j0 : NoDup (id_positions j0 id ops).
Proof.
  revert j0. induction ops as [|op ops IH]; intros j0; simpl; [constructor|].
  destruct (is_id_use id op); simpl; [|apply IH].
  constructor; [|apply IH].
  rewrite id_positions_spec. intros (k & ? & ? & _). lia.
Qed.

Lemma id_positions_length ops id j0 :
  length (id_positions j0 id ops) = length (filter (λ op, is_id_use id op = true) ops).
Proof.
  revert j0. induction ops as [|op ops IH]; intros j0; simpl; [done|].
  rewrite length_app, IH, filter_cons.
  by destruct (is_id_use id op).
Qed.

Lemma id_positions_nil ops id j0 :
  id_positions j0 id ops = [] ↔ ∀ op, op ∈ ops → is_id_use id op = false.
Proof.
  revert j0. induction ops as [|op ops IH]; intros j0; simpl.
  - split; [by intros _ ? ?%elem_of_nil|done].
  - split.
    + intros [H1 H2]%app_eq_nil op' [E|Hin]%elem_of_cons.
      * subst op'. by destruct (is_id_use id op).
      * by eapply IH.
    + intros H. apply app_nil. split.
      * rewrite (H op); [done|]. by left.
      * apply IH. intros op' Hin. apply H. by right.
Qed.

Lemma ForEachUse_spec m id u j :
  (u, j) ∈ ForEachUse m id ↔
  u < length m ∧
  ∃ op, in_operands (deref m u) !! j = Some op ∧ is_id_use id op = true.
Proof.
  unfold ForEachUse. rewrite list_elem_of_bind. split.
  - intros (u' & Hin & Hu'). apply list_elem_of_fmap in Hin as (j' & [= -> ->] & Hj).
    apply elem_of_seq in Hu'. split; [lia|].
    apply id_positions_spec in Hj as (k & op & -> & ? & ?). by exists op.
  - intros (Hu & op & Hop & Huse). exists u. split.
    + apply list_elem_of_fmap. exists j. split; [done|].
      apply id_positions_spec. by exists j, op.
    + apply elem_of_seq. lia.
Qed.

Lemma ForEachUse_NoDup m id : NoDup (ForEachUse m id).
Proof.
  unfold ForEachUse. apply NoDup_bind; [| |apply NoDup_seq].
  - intros u1 u2 [u j] _ _ (?&[= -> _]&_)%list_elem_of_fmap
      (?&[= -> _]&_)%list_elem_of_fmap. done.
  - intros u _. apply NoDup_fmap_2; [|apply id_positions_NoDup].
    by intros ?? [= ->].
Qed.

(** ** Use counts as sums over the module *)

Lemma count_visit_foldl m a l :
  foldl (count_visit m) a l =
  a + length (filter (λ use, is_metadata (opcode (deref m use.1)) = false) l).
Proof.
  revert a. induction l as [|[u j] l IH]; intros a; simpl; [lia|].
  rewrite IH, filter_cons. unfold count_visit; simpl.
  destruct (is_metadata (opcode (deref m u))); simpl; lia.
Qed.

Lemma count_uses_filter m id :
  count_uses m id =
  length (filter (λ use, is_metadata (opcode (deref m use.1)) = false)
                 (ForEachUse m id)).
Proof. unfold count_uses. by rewrite count_visit_foldl. Qed.

Lemma length_filter_bind {A B} (P : B → Prop) `{!∀ x, Decision (P x)}
    (f : A → list B) (l : list A) :
  length (filter P (l ≫= f)) = sum_list_with (λ a, length (filter P (f a))) l.
Proof.
  induction l as [|a l IH]; csimpl; [done|].
  by rewrite filter_app, length_app, IH.
Qed.

Lemma sum_list_with_ext' {A} (f g : A → nat) (l : list A) :
  (∀ a, a ∈ l → f a = g a) → sum_list_with f l = sum_list_with g l.
Proof.
  induction l as [|a l IH]; intros H; simpl; [done|].
  rewrite H, IH; [done| |by left]. intros b Hb. apply H. by right.
Qed.

Lemma sum_list_with_le {A} (f g : A → nat) (l : list A) :
  (∀ a, a ∈ l → f a ≤ g a) → sum_list_with f l ≤ sum_list_with g l.
Proof.
  induction l as [|a l IH]; intros H; simpl; [done|].
  assert (f a ≤ g a) by (apply H; by left).
  assert (sum_list_with f l ≤ sum_list_with g l); [|lia].
  apply IH. intros b Hb. apply H. by right.
Qed.

Lemma count_uses_sum m id :
  count_uses m id = sum_list_with (real_uses m id) (seq 0 (length m)).
Proof.
  rewrite count_uses_filter. unfold ForEachUse. rewrite length_filter_bind.
  apply sum_list_with_ext'. intros u _. unfold real_uses.
  induction (id_positions 0 id (in_operands (deref m u))) as [|j ps IH];
    csimpl; [by destruct (is_metadata _)|].
  rewrite filter_cons; simpl.
  destruct (is_metadata (opcode (deref m u))); simpl; [done|].
  by rewrite IH.
Qed.

(** ** What processing a set of instructions gives back *)

Lemma length_filter_impl {A} (P Q : A → Prop)
    `{!∀ x, Decision (P x)} `{!∀ x, Decision (Q x)} (l : list A) :
  (∀ x, x ∈ l → P x → Q x) → length (filter P l) ≤ length (filter Q l).
Proof.
  induction l as [|a l IH]; intros Himp; [done|].
  rewrite !filter_cons.
  assert (length (filter P l) ≤ length (filter Q l)).
  { apply IH. intros x Hx. apply Himp. by right. }
  destruct (decide (P a)) as [HP|]; destruct (decide (Q a)) as [|HQ]; simpl; try lia.
  destruct HQ. apply Himp; [by left|done].
Qed.

Lemma targets_is_id_use m d op :
  targets m d op = true → is_id_use (result_id (deref m d)) op = true.
Proof.
  unfold targets, is_id_use.
  intros [Ht Hd]%andb_prop. apply bool_decide_eq_true in Ht, Hd.
  apply GetDef_Some in Hd as (_ & _ & Hd).
  by rewrite !bool_decide_eq_true_2.
Qed.

Lemma propagates_not_metadata op : propagates op = true → is_metadata op = false.
Proof. by destruct op. Qed.

Lemma propagates_constant op : propagates op = true → IsConstantInst op = true.
Proof. by destruct op. Qed.

Lemma constant_not_metadata op : IsConstantInst op = true → is_metadata op = false.
Proof. by destruct op. Qed.

Lemma hits_walked_le m d u :
  hits m d (walked m u) ≤ real_uses m (result_id (deref m d)) u.
Proof.
  unfold walked, real_uses.
  destruct (propagates (opcode (deref m u))) eqn:E; [|unfold hits; simpl; lia].
  rewrite (propagates_not_metadata _ E), id_positions_length.
  apply length_filter_impl. intros op _. apply targets_is_id_use.
Qed.

Lemma released_le_count m D d :
  released m D d ≤ count_uses m (result_id (deref m d)).
Proof.
  rewrite count_uses_sum. apply sum_list_with_le. intros u _.
  case_decide; [apply hits_walked_le|lia].
Qed.

Lemma released_mono m D D' d : D ⊆ D' → released m D d ≤ released m D' d.
Proof.
  intros Hsub. apply sum_list_with_le. intros u _.
  destruct (decide (u ∈ D)) as [Hu|]; [|lia].
  by rewrite decide_True by set_solver.
Qed.

Lemma released_empty m d : released m ∅ d = 0.
Proof.
  unfold released. induction (seq 0 (length m)) as [|u l IH]; [done|].
  simpl. by rewrite IH, decide_False by set_solver.
Qed.

Lemma sum_indicator_insert (h : nat → nat) (D : gset nat) (i : nat) (l : list nat) :
  NoDup l → i ∉ D →
  sum_list_with (λ u, if decide (u ∈ {[i]} ∪ D) then h u else 0) l =
  sum_list_with (λ u, if decide (u ∈ D) then h u else 0) l
  + (if decide (i ∈ l) then h i else 0).
Proof.
  intros Hnd Hi. induction Hnd as [|u l Hu Hnd IH]; simpl; [done|].
  rewrite IH.
  destruct (decide (u = i)) as [->|Hne]; repeat case_decide; try lia; set_solver.
Qed.

Lemma released_insert m D i d :
  i ∉ D → i < length m →
  released m ({[i]} ∪ D) d = released m D d + hits m d (walked m i).
Proof.
  intros Hi Hlt. unfold released.
  rewrite (sum_indicator_insert (λ u, hits m d (walked m u)))
    by (apply NoDup_seq || done).
  rewrite decide_True; [done|]. apply elem_of_seq. lia.
Qed.

(** ** Phase 1 *)

Lemma count_constants_fold m cs st :
  let st' := foldl (count_constant m) st cs in
  (∀ d, use_counts st' !! d =
        if decide (d ∈ cs) then Some (count_uses m (result_id (deref m d)))
        else use_counts st !! d) ∧
  (∀ d, d ∈ working_list st' ↔
        d ∈ working_list st ∨
        (d ∈ cs ∧ count_uses m (result_id (deref m d)) = 0)) ∧
  dead_consts st' = dead_consts st.
Proof.
  revert st. induction cs as [|c cs IH]; intros st; simpl.
  - split_and!; [done| |done]. intros d. rewrite elem_of_nil. naive_solver.
  - destruct (IH (count_constant m st c)) as (Hc & Hw & Hd). split_and!.
    + intros d. rewrite Hc. simpl.
      destruct (decide (d ∈ cs)) as [Hin|Hnin].
      * by rewrite decide_True by (by right).
      * destruct (decide (d = c)) as [->|Hne].
        -- rewrite decide_True by (by left). by rewrite lookup_insert_eq.
        -- rewrite decide_False by (rewrite elem_of_cons; naive_solver).
           by rewrite lookup_insert_ne.
    + intros d. rewrite Hw. simpl. rewrite elem_of_cons.
      case_decide; set_solver.
    + by rewrite Hd.
Qed.

Lemma initial_state_counts m cs d :
  cs ≡ₚ GetConstants m →
  use_counts (initial_state m cs) !! d =
    if decide (d ∈ GetConstants m)
    then Some (count_uses m (result_id (deref m d))) else None.
Proof.
  intros Hp. unfold initial_state.
  destruct (count_constants_fold m cs (mkState ∅ ∅ ∅)) as (Hc & _ & _).
  rewrite Hc. simpl. rewrite lookup_empty.
  destruct (decide (d ∈ cs)) as [Hin|Hnin].
  - by rewrite decide_True by (by rewrite <- Hp).
  - by rewrite decide_False by (by rewrite <- Hp).
Qed.

Lemma initial_state_working m cs d :
  cs ≡ₚ GetConstants m →
  d ∈ working_list (initial_state m cs) ↔
  d ∈ GetConstants m ∧ count_uses m (result_id (deref m d)) = 0.
Proof.
  intros Hp. unfold initial_state.
  destruct (count_constants_fold m cs (mkState ∅ ∅ ∅)) as (_ & Hw & _).
  rewrite Hw. simpl. rewrite Hp. set_solver.
Qed.

Lemma initial_state_dead m cs : dead_consts (initial_state m cs) = ∅.
Proof.
  unfold initial_state.
  by destruct (count_constants_fold m cs (mkState ∅ ∅ ∅)) as (_ & _ & ->).
Qed.

(** The two permutations of the constants start the loop in the same
    state. *)
Lemma initial_state_perm m cs :
  cs ≡ₚ GetConstants m → initial_state m cs = initial_state m (GetConstants m).
Proof.
  intros Hp.
  assert (∀ st1 st2, use_counts st1 = use_counts st2 →
            working_list st1 = working_list st2 →
            dead_consts st1 = dead_consts st2 → st1 = st2) as Heq.
  { intros [] []; simpl; by intros -> -> ->. }
  apply Heq.
  - apply map_eq. intros d. by rewrite !initial_state_counts.
  - apply set_eq. intros d. by rewrite !initial_state_working.
  - by rewrite !initial_state_dead.
Qed.

Lemma Inv_initial m cs : cs ≡ₚ GetConstants m → Inv m (initial_state m cs).
Proof.
  intros Hp. split.
  - intros d. rewrite initial_state_counts, initial_state_dead by done.
    case_decide; [|done]. rewrite released_empty. f_equal. lia.
  - intros d. rewrite initial_state_dead, released_empty.
    rewrite elem_of_union, initial_state_working by done. set_solver.
  - rewrite initial_state_dead. set_solver.
  - intros S HS d. rewrite initial_state_dead.
    rewrite elem_of_union, initial_state_working by done.
    intros [[Hd Hz]|Hd]; [|set_solver]. apply HS; [done|lia].
Qed.

(** ** The operand loop *)

Lemma hits_cons m d op ops :
  hits m d (op :: ops) = (if targets m d op then 1 else 0) + hits m d ops.
Proof.
  unfold hits. rewrite filter_cons. by destruct (targets m d op).
Qed.

Lemma targets_true m d op :
  targets m d op = true ↔
  type op = SPV_OPERAND_TYPE_ID ∧ GetDef m (word op) = Some d.
Proof.
  unfold targets. by rewrite andb_true_iff, !bool_decide_eq_true.
Qed.

Lemma visit_operand_cases m st op :
  (visit_operand m st op = Ok st ∧
   ∀ d, targets m d op = true → use_counts st !! d = None) ∨
  (∃ d0 n, targets m d0 op = true ∧
     (∀ d, targets m d op = true → d = d0) ∧
     use_counts st !! d0 = Some n ∧
     visit_operand m st op =
       if decide (n = 0) then AssertionFailure
       else Ok (mkState (<[d0 := n - 1]> (use_counts st))
                        (if decide (n - 1 = 0)
                         then {[d0]} ∪ working_list st else working_list st)
                        (dead_consts st))).
Proof.
  unfold visit_operand. case_decide as Ht.
  { left. split; [done|]. intros d [? _]%targets_true. done. }
  destruct (GetDef m (word op)) as [d0|] eqn:Hd.
  - destruct (use_counts st !! d0) as [n|] eqn:Hn.
    + right. exists d0, n. split_and!; [by apply targets_true| |done|done].
      intros d [_ ?]%targets_true. congruence.
    + left. split; [done|]. intros d [_ ?]%targets_true. congruence.
  - left. split; [done|]. intros d [_ ?]%targets_true. congruence.
Qed.

Lemma visit_operands_ok m ops st :
  (∀ d n, use_counts st !! d = Some n → hits m d ops ≤ n) →
  ∃ st', for_each (visit_operand m) st ops = Ok st' ∧
    dead_consts st' = dead_consts st ∧
    (∀ d, use_counts st' !! d = (λ n, n - hits m d ops) <$> use_counts st !! d) ∧
    (∀ d, d ∈ working_list st' ↔
          d ∈ working_list st ∨
          (0 < hits m d ops ∧ use_counts st' !! d = Some 0)).
Proof.
  revert st. induction ops as [|op ops IH]; intros st Hle.
  { exists st. split_and!; [done|done| |].
    - intros d. destruct (use_counts st !! d); simpl; [f_equal; unfold hits; simpl; lia|done].
    - intros d. unfold hits; simpl. intuition lia. }
  simpl. destruct (visit_operand_cases m st op) as
    [[-> Hnone]|(d0 & n & Ht & Honly & Hn & ->)]; simpl.
  - destruct (IH st) as (st' & Hrun & Hdead & Hc & Hw).
    { intros d n Hn. specialize (Hle d n Hn). rewrite hits_cons in Hle. lia. }
    exists st'. split_and!; [done|done| |].
    + intros d. rewrite Hc, hits_cons.
      destruct (targets m d op) eqn:E; [|done]. by rewrite (Hnone d E).
    + intros d. rewrite Hw, Hc, hits_cons.
      destruct (targets m d op) eqn:E; [|done].
      rewrite (Hnone d E). simpl. naive_solver.
  - pose proof (Hle d0 n Hn) as Hd0. rewrite hits_cons, Ht in Hd0.
    rewrite decide_False by lia.
    set (st1 := mkState _ _ _).
    destruct (IH st1) as (st' & Hrun & Hdead & Hc & Hw).
    { intros d k. unfold st1; simpl.
      destruct (decide (d = d0)) as [->|Hne].
      - rewrite lookup_insert_eq. intros [= <-]. lia.
      - rewrite lookup_insert_ne by done. intros Hk.
        specialize (Hle d k Hk). rewrite hits_cons in Hle. lia. }
    exists st'. split_and!; [done|done| |].
    + intros d. rewrite Hc, hits_cons. unfold st1; simpl.
      destruct (decide (d = d0)) as [->|Hne].
      * rewrite lookup_insert_eq, Hn, Ht. simpl. f_equal. lia.
      * rewrite lookup_insert_ne by done.
        destruct (targets m d op) eqn:E; [|done].
        by specialize (Honly d E).
    + intros d. rewrite Hw, Hc, hits_cons. unfold st1; simpl.
      destruct (decide (d = d0)) as [->|Hne].
      * rewrite lookup_insert_eq, Ht. simpl.
        case_decide; rewrite ?elem_of_union, ?elem_of_singleton.
        -- split; [|intros _; left; by left].
           intros _. right. split; [lia|f_equal; lia].
        -- split.
           ++ intros [?|[? ?]]; [by left|right]. split; [lia|done].
           ++ intros [?|[_ Hz]]; [by left|right]. split; [|done].
              injection Hz as Hz. lia.
      * rewrite lookup_insert_ne by done.
        destruct (targets m d op) eqn:E; [by specialize (Honly d E)|].
        case_decide; set_solver.
Qed.

(** ** One iteration keeps the invariant *)

Lemma loop_body_walked m st inst :
  loop_body m st inst =
  bind (for_each (visit_operand m) st (walked m inst))
       (λ st1, Ok (mkState (use_counts st1)
                           (working_list st1 ∖ {[inst]})
                           ({[inst]} ∪ dead_consts st1))).
Proof. unfold loop_body, walked. by destruct (propagates _). Qed.

Lemma loop_body_Inv m st inst :
  Inv m st → inst ∈ working_list st →
  ∃ st', loop_body m st inst = Ok st' ∧ Inv m st' ∧
    dead_consts st' = {[inst]} ∪ dead_consts st ∧
    (inst ∉ dead_consts st) ∧
    inst ∈ GetConstants m ∧
    (inst ∉ working_list st') ∧
    working_list st ∖ {[inst]} ⊆ working_list st'.
Proof.
  intros [Hcnt Hzero Hdisj Hleast] Hin.
  assert (inst ∉ dead_consts st) as Hnd by set_solver.
  assert (inst ∈ GetConstants m) as Hconst.
  { apply (Hzero inst). set_solver. }
  assert (inst < length m) as Hlt by (by eapply GetConstants_lt).
  pose proof (λ d, released_insert m (dead_consts st) inst d Hnd Hlt) as Hins.
  pose proof (λ d, released_le_count m ({[inst]} ∪ dead_consts st) d) as Hle.
  destruct (visit_operands_ok m (walked m inst) st) as (st1 & Hrun & Hdead & Hc & Hw).
  { intros d n. rewrite Hcnt. case_decide; [|done]. intros [= <-].
    specialize (Hins d). specialize (Hle d). lia. }
  rewrite loop_body_walked, Hrun. simpl. eexists. split; [done|].
  rewrite Hdead.
  assert (∀ d, d ∈ working_list st1 ∖ {[inst]} ∪ ({[inst]} ∪ dead_consts st) ↔
               d ∈ GetConstants m ∧
               count_uses m (result_id (deref m d))
               = released m ({[inst]} ∪ dead_consts st) d) as Hzero'.
  { intros d. specialize (Hins d). specialize (Hle d).
    specialize (Hzero d). specialize (Hw d). specialize (Hc d).
    rewrite Hcnt in Hc. split.
    - intros Hd.
      assert (d ∈ working_list st ∪ dead_consts st ∨
              (0 < hits m d (walked m inst) ∧ use_counts st1 !! d = Some 0))
        as [Hold|[Hpos Hz]] by set_solver.
      + apply Hzero in Hold as [? ?]. split; [done|lia].
      + rewrite Hz in Hc. case_decide; [|done]. split; [done|].
        simpl in Hc. injection Hc as Hc. lia.
    - intros [Hd Heq].
      destruct (decide (d = inst)) as [->|Hne]; [set_solver|].
      destruct (decide (count_uses m (result_id (deref m d))
                        = released m (dead_consts st) d)) as [He|Hn].
      + assert (d ∈ working_list st ∪ dead_consts st) by (apply Hzero; done).
        set_solver.
      + assert (d ∈ working_list st1); [|set_solver].
        apply Hw. right. split; [lia|]. rewrite Hc, decide_True by done.
        simpl. f_equal. lia. }
  split_and!; simpl; [split; simpl| | | |set_solver|set_solver]; try done.
  - intros d. rewrite Hc, Hcnt. case_decide; [|done]. simpl. f_equal.
    specialize (Hins d). lia.
  - intros d Hd1 Hd2.
    assert (d ∈ dead_consts st ∧ d ∈ working_list st1) as [HdD Hd1'] by set_solver.
    apply Hw in Hd1' as [?|[Hpos _]]; [set_solver|].
    assert (d ∈ working_list st ∪ dead_consts st) as Hd by set_solver.
    apply Hzero in Hd as [_ Hd]. specialize (Hins d). specialize (Hle d). lia.
  - intros S HS d Hd. apply Hzero' in Hd as [Hd Heq]. apply HS; [done|].
    rewrite Heq. apply released_mono. specialize (Hleast S HS). set_solver.
Qed.

(** ** Runs of the loop *)

Lemma Inv_dead_constants m st d :
  Inv m st → d ∈ working_list st ∪ dead_consts st → d ∈ GetConstants m.
Proof. intros HI Hd. by apply (inv_zero _ _ HI) in Hd as [? _]. Qed.

Lemma Inv_dead_size m st :
  Inv m st → size (dead_consts st) ≤ length (GetConstants m).
Proof.
  intros HI.
  rewrite <- (size_list_to_set (C := gset nat)) by apply NoDup_GetConstants.
  apply subseteq_size. intros d Hd. apply elem_of_list_to_set.
  eapply Inv_dead_constants; [done|set_solver].
Qed.

Lemma loop_steps_Inv m n st st' :
  Inv m st → loop_steps m n st st' →
  Inv m st' ∧ size (dead_consts st') = size (dead_consts st) + n ∧
  dead_consts st ⊆ dead_consts st'.
Proof.
  intros HI Hsteps. induction Hsteps as [st|n st inst st1 st2 Hin Hbody _ IH].
  - split_and!; [done|lia|done].
  - destruct (loop_body_Inv m st inst HI Hin)
      as (st1' & Hb & HI1 & Hdead & Hnd & _).
    rewrite Hbody in Hb. injection Hb as <-.
    destruct (IH HI1) as (HI2 & Hsz & Hsub). split_and!; [done| |set_solver].
    rewrite Hsz, Hdead, size_union, size_singleton by set_solver. lia.
Qed.

Lemma loop_run_Inv m st r :
  Inv m st → loop_run m st r →
  ∃ st', r = Ok st' ∧ Inv m st' ∧ working_list st' = ∅.
Proof.
  intros HI Hrun. induction Hrun as [st He|st inst st1 r Hin Hbody _ IH|st inst Hin Hbody].
  - by exists st.
  - destruct (loop_body_Inv m st inst HI Hin) as (st1' & Hb & HI1 & _).
    rewrite Hbody in Hb. injection Hb as <-. by apply IH.
  - destruct (loop_body_Inv m st inst HI Hin) as (st1' & Hb & _). congruence.
Qed.

Lemma loop_total m fuel st :
  Inv m st → length (GetConstants m) ≤ fuel + size (dead_consts st) →
  ∃ st', loop fuel m st = Some (Ok st') ∧ loop_run m st (Ok st').
Proof.
  revert st. induction fuel as [|fuel IH]; intros st HI Hfuel.
  - destruct (elements (working_list st)) as [|inst l] eqn:E.
    + exists st. simpl. rewrite E. split; [done|].
      apply loop_exit. by apply elements_empty_inv, leibniz_equiv in E.
    + assert (inst ∈ working_list st) as Hin.
      { apply elem_of_elements. rewrite E. by left. }
      destruct (loop_body_Inv m st inst HI Hin) as (st1 & _ & HI1 & Hd & Hnd & _).
      pose proof (Inv_dead_size m st1 HI1) as Hsz.
      rewrite Hd, size_union, size_singleton in Hsz by set_solver. lia.
  - simpl. destruct (elements (working_list st)) as [|inst l] eqn:E.
    + exists st. split; [done|].
      apply loop_exit. by apply elements_empty_inv, leibniz_equiv in E.
    + assert (inst ∈ working_list st) as Hin.
      { apply elem_of_elements. rewrite E. by left. }
      destruct (loop_body_Inv m st inst HI Hin) as (st1 & Hb & HI1 & Hd & Hnd & _).
      rewrite Hb. destruct (IH st1 HI1) as (st' & Hl & Hr).
      { rewrite Hd, size_union, size_singleton by set_solver. lia. }
      exists st'. split; [done|]. by eapply loop_iterate.
Qed.

Lemma final_dead_closed m st :
  Inv m st → working_list st = ∅ → closed m (dead_consts st).
Proof.
  intros HI He d Hd Hle.
  pose proof (released_le_count m (dead_consts st) d).
  assert (d ∈ working_list st ∪ dead_consts st) as Hin; [|set_solver].
  apply (inv_zero _ _ HI). split; [done|lia].
Qed.

Lemma final_dead_unique m st1 st2 :
  Inv m st1 → working_list st1 = ∅ →
  Inv m st2 → working_list st2 = ∅ →
  dead_consts st1 = dead_consts st2.
Proof.
  intros HI1 He1 HI2 He2.
  pose proof (inv_least _ _ HI1 _ (final_dead_closed _ _ HI2 He2)).
  pose proof (inv_least _ _ HI2 _ (final_dead_closed _ _ HI1 He1)).
  set_solver.
Qed.

(** ** Dead metadata *)

Lemma ForEachUser_spec m dc u :
  u ∈ ForEachUser m dc ↔ u < length m ∧ refers_to m u dc.
Proof.
  unfold ForEachUser, refers_to.
  rewrite list_elem_of_filter, elem_of_seq, id_positions_nil.
  split.
  - intros [Hne Hu]. split; [lia|].
    destruct (decide (Exists (λ op, is_id_use (result_id (deref m dc)) op = true)
                        (in_operands (deref m u)))) as [He|Hn].
    + apply Exists_exists in He. naive_solver.
    + destruct Hne. intros op Hop. apply not_true_is_false. intros Ht.
      apply Hn, Exists_exists. eauto.
  - intros [Hu (op & Hop & Huse)]. split; [|lia].
    intros Hall. rewrite (Hall op Hop) in Huse. done.
Qed.

Lemma collect_visit_foldl m acc us x :
  x ∈ foldl (collect_visit m) acc us ↔
  x ∈ acc ∨ (x ∈ us ∧ is_metadata (opcode (deref m x)) = true).
Proof.
  revert acc. induction us as [|u us IH]; intros acc; simpl.
  - rewrite elem_of_nil. naive_solver.
  - rewrite IH, elem_of_cons. unfold collect_visit.
    destruct (is_metadata (opcode (deref m u))) eqn:E;
      rewrite ?elem_of_union, ?elem_of_singleton.
    + split.
      * intros [[->|?]|[? ?]]; [right; split; [by left|done]|by left|].
        right. split; [by right|done].
      * intros [?|[[->|?] ?]]; [left; by right|left; by left|right; done].
    + split.
      * intros [?|[? ?]]; [by left|right]. split; [by right|done].
      * intros [?|[[->|?] ?]]; [by left|congruence|by right].
Qed.

Lemma collect_dead_others_fold m acc dl x :
  x ∈ foldl (λ acc dc, foldl (collect_visit m) acc (ForEachUser m dc)) acc dl ↔
  x ∈ acc ∨ ∃ dc, dc ∈ dl ∧ x ∈ ForEachUser m dc
                  ∧ is_metadata (opcode (deref m x)) = true.
Proof.
  revert acc. induction dl as [|d dl IH]; intros acc; simpl.
  - split; [by left|]. intros [?|(dc & ?%elem_of_nil & _)]; done.
  - rewrite IH, collect_visit_foldl. split.
    + intros [[?|[? ?]]|(dc & ? & ?)]; [by left| |].
      * right. exists d. split; [by left|done].
      * right. exists dc. split; [by right|done].
    + intros [?|(dc & [->|?]%elem_of_cons & ? & ?)]; [by left; left| |].
      * left. by right.
      * right. by exists dc.
Qed.

Lemma collect_dead_others_spec m dl x :
  x ∈ collect_dead_others m dl ↔
  ∃ dc, dc ∈ dl ∧ x ∈ ForEachUser m dc ∧ is_metadata (opcode (deref m x)) = true.
Proof.
  unfold collect_dead_others. rewrite collect_dead_others_fold. set_solver.
Qed.

Lemma collect_dead_others_perm m dl dl' :
  dl ≡ₚ dl' → collect_dead_others m dl = collect_dead_others m dl'.
Proof.
  intros Hp. apply set_eq. intros x. rewrite !collect_dead_others_spec.
  by setoid_rewrite Hp.
Qed.

(** ** Deletion *)

Lemma deref_mask K m u :
  deref (mask K m) u = if decide (u ∈ K) then nop else deref m u.
Proof.
  unfold deref, mask. rewrite !list_lookup_total_alt, list_lookup_imap.
  destruct (m !! u); simpl; [done|]. by case_decide.
Qed.

Lemma length_mask K m : length (mask K m) = length m.
Proof. apply length_imap. Qed.

Lemma mask_empty m : mask ∅ m = m.
Proof.
  apply list_eq. intros i. unfold mask. rewrite list_lookup_imap.
  destruct (m !! i); simpl; [|done]. by rewrite decide_False by set_solver.
Qed.

Lemma KillInst_mask K m i : KillInst (mask K m) i = mask ({[i]} ∪ K) m.
Proof.
  apply list_eq. intros j. unfold KillInst, mask.
  rewrite list_lookup_insert, !list_lookup_imap, length_imap.
  destruct (m !! j) as [x|] eqn:E; simpl.
  - apply lookup_lt_Some in E.
    destruct (decide (i = j)) as [->|Hne].
    + rewrite decide_True by done. by rewrite decide_True by set_solver.
    + rewrite decide_False by naive_solver.
      destruct (decide (j ∈ K)).
      * by rewrite decide_True by set_solver.
      * by rewrite decide_False by set_solver.
  - apply lookup_ge_None in E. by rewrite decide_False by lia.
Qed.

Lemma foldl_KillInst_mask K m ol :
  foldl KillInst (mask K m) ol = mask (list_to_set ol ∪ K) m.
Proof.
  revert K. induction ol as [|i ol IH]; intros K; simpl.
  - f_equal. set_solver.
  - rewrite KillInst_mask, IH. f_equal. set_solver.
Qed.

Lemma GetDef_mask_Some K m id i :
  GetDef (mask K m) id = Some i →
  (i ∉ K) ∧ i < length m ∧ result_id (deref m i) = id ∧ id ≠ 0.
Proof.
  intros (Hid & Hlt & Hr)%GetDef_Some.
  rewrite length_mask in Hlt. rewrite deref_mask in Hr.
  case_decide; [simpl in Hr; congruence|done].
Qed.

Lemma GetDef_None m id i :
  GetDef m id = None → i < length m → id ≠ 0 → result_id (deref m i) ≠ id.
Proof.
  intros Hnone Hlt Hid Hr. unfold GetDef in Hnone.
  rewrite decide_False in Hnone by done.
  destruct (list_find _ m) as [[j x]|] eqn:E; simpl in Hnone; [done|].
  apply list_find_None in E. rewrite Forall_forall in E.
  eapply E; [|exact Hr]. apply list_elem_of_lookup. exists i. by apply lookup_deref.
Qed.

Lemma GetDef_mask_unique K m d :
  unique_ids m → d < length m → result_id (deref m d) ≠ 0 →
  GetDef (mask K m) (result_id (deref m d)) = if decide (d ∈ K) then None else Some d.
Proof.
  intros Hu Hlt Hid.
  destruct (GetDef (mask K m) _) as [i|] eqn:E.
  - apply GetDef_mask_Some in E as (HiK & Hi & Hr & _).
    assert (i = d) as -> by (apply Hu; congruence).
    by rewrite decide_False.
  - case_decide; [done|]. exfalso.
    eapply (GetDef_None _ _ d) in E; [|by rewrite length_mask|done].
    rewrite deref_mask, decide_False in E; done.
Qed.

Lemma KillDef_mask K m id :
  ∃ K', KillDef (mask K m) id = mask (K' ∪ K) m ∧
        ∀ i, i ∈ K' → i < length m ∧ result_id (deref m i) = id ∧ id ≠ 0.
Proof.
  unfold KillDef. destruct (GetDef (mask K m) id) as [i|] eqn:E.
  - apply GetDef_mask_Some in E as (_ & Hi & Hr & Hid).
    exists {[i]}. split; [apply KillInst_mask|].
    by intros j ->%elem_of_singleton.
  - exists ∅. split; [f_equal; set_solver|set_solver].
Qed.

Lemma result_id_mask K m dc :
  result_id (deref (mask K m) dc)
  = if decide (dc ∈ K) then 0 else result_id (deref m dc).
Proof. rewrite deref_mask. by case_decide. Qed.

Lemma kill_dead_consts_mask m dl K0 :
  ∃ K, kill_dead_consts (mask K0 m) dl = mask (K ∪ K0) m ∧
       ∀ i, i ∈ K → i < length m ∧
                    ∃ dc, dc ∈ dl ∧ result_id (deref m i) = result_id (deref m dc)
                          ∧ result_id (deref m i) ≠ 0.
Proof.
  revert K0. induction dl as [|dc dl IH]; intros K0; simpl.
  - exists ∅. split; [f_equal; set_solver|set_solver].
  - destruct (KillDef_mask K0 m (result_id (deref (mask K0 m) dc)))
      as (K' & -> & HK').
    destruct (IH (K' ∪ K0)) as (K & -> & HK).
    exists (K ∪ K'). split; [f_equal; set_solver|].
    intros j [Hj|Hj]%elem_of_union.
    + destruct (HK j Hj) as (? & dc' & ? & ?). split; [done|].
      exists dc'. split; [by right|done].
    + destruct (HK' j Hj) as (Hlt & Hr & Hid). split; [done|].
      rewrite result_id_mask in Hr, Hid. case_decide; [done|].
      exists dc. split; [by left|]. split; congruence.
Qed.

Lemma kill_def_calls_mask m dl K0 id :
  id ∈ kill_def_calls (mask K0 m) dl →
  ∃ dc, dc ∈ dl ∧ (id = 0 ∨ id = result_id (deref m dc)).
Proof.
  revert K0. induction dl as [|dc dl IH]; intros K0; simpl.
  - by intros ?%elem_of_nil.
  - intros [->|Hin]%elem_of_cons.
    + exists dc. split; [by left|]. rewrite result_id_mask.
      case_decide; [by left|by right].
    + destruct (KillDef_mask K0 m (result_id (deref (mask K0 m) dc)))
        as (K' & HK' & _).
      rewrite HK' in Hin. destruct (IH _ Hin) as (dc' & ? & ?).
      exists dc'. split; [by right|done].
Qed.

Lemma kill_dead_consts_wf m dl K0 :
  unique_ids m →
  (∀ dc, dc ∈ dl → dc < length m ∧ result_id (deref m dc) ≠ 0) →
  kill_dead_consts (mask K0 m) dl = mask (list_to_set dl ∪ K0) m.
Proof.
  intros Hu. revert K0. induction dl as [|dc dl IH]; intros K0 Hdl; simpl.
  - f_equal. set_solver.
  - destruct (Hdl dc) as [Hlt Hid]; [by left|].
    assert (∀ dc', dc' ∈ dl → dc' < length m ∧ result_id (deref m dc') ≠ 0)
      as Hdl' by (intros ??; apply Hdl; by right).
    rewrite result_id_mask. destruct (decide (dc ∈ K0)) as [HK|HK].
    + assert (KillDef (mask K0 m) 0 = mask K0 m) as ->.
      { unfold KillDef, GetDef. by rewrite decide_True. }
      rewrite IH by done. f_equal. set_solver.
    + unfold KillDef. rewrite GetDef_mask_unique, decide_False by done.
      rewrite KillInst_mask, IH by done. f_equal. set_solver.
Qed.

Lemma kill_def_calls_wf m dl K0 :
  unique_ids m → NoDup dl →
  (∀ dc, dc ∈ dl → dc < length m ∧ result_id (deref m dc) ≠ 0 ∧ dc ∉ K0) →
  kill_def_calls (mask K0 m) dl = (λ dc, result_id (deref m dc)) <$> dl.
Proof.
  intros Hu Hnd. revert K0.
  induction Hnd as [|dc dl Hnin Hnd IH]; intros K0 Hdl; simpl; [done|].
  destruct (Hdl dc) as (Hlt & Hid & HK); [by left|].
  rewrite result_id_mask, decide_False by done. f_equal.
  unfold KillDef. rewrite GetDef_mask_unique, decide_False by done.
  rewrite KillInst_mask. apply IH. intros dc' Hin.
  destruct (Hdl dc') as (? & ? & ?); [by right|]. split_and!; [done|done|].
  intros [->%elem_of_singleton|?]%elem_of_union; done.
Qed.

(** ** Executions of the pass *)

Lemma Process_run_inv m r :
  Process_run m r →
  ∃ st dl ol, r = Ok (finish m (dead_consts st) dl ol) ∧
    Inv m st ∧ working_list st = ∅ ∧
    dl ≡ₚ elements (dead_consts st) ∧
    ol ≡ₚ elements (collect_dead_others m dl).
Proof.
  intros [cs st dl ol Hp Hrun Hdl Hol|cs Hp Hrun].
  - destruct (loop_run_Inv _ _ _ (Inv_initial m cs Hp) Hrun)
      as (st' & [= <-] & HI & He).
    by exists st, dl, ol.
  - by destruct (loop_run_Inv _ _ _ (Inv_initial m cs Hp) Hrun) as (? & ? & _).
Qed.

Lemma Process_total m :
  ∃ o, Process m = Some (Ok o) ∧ Process_run m (Ok o).
Proof.
  unfold Process.
  destruct (loop_total m (length (GetConstants m))
              (initial_state m (GetConstants m))) as (st & -> & Hrun).
  - by apply Inv_initial.
  - lia.
  - eexists. split; [done|]. by eapply Process_ok.
Qed.

Lemma dead_others_of_run m st dl x :
  dl ≡ₚ elements (dead_consts st) →
  x ∈ collect_dead_others m dl ↔
  x < length m ∧ is_metadata (opcode (deref m x)) = true ∧
  ∃ c, c ∈ dead_consts st ∧ refers_to m x c.
Proof.
  intros Hp. rewrite collect_dead_others_spec. setoid_rewrite Hp.
  setoid_rewrite elem_of_elements. setoid_rewrite ForEachUser_spec.
  naive_solver.
Qed.

Lemma finish_module_general m D dl ol :
  ∃ K, module_after (finish m D dl ol) = mask (list_to_set ol ∪ K) m ∧
       ∀ i, i ∈ K → i < length m ∧
                    ∃ dc, dc ∈ dl ∧ result_id (deref m i) = result_id (deref m dc)
                          ∧ result_id (deref m i) ≠ 0.
Proof.
  unfold finish; simpl.
  destruct (kill_dead_consts_mask m dl ∅) as (K & HK & HKin).
  rewrite mask_empty in HK. rewrite HK, foldl_KillInst_mask.
  exists K. split; [f_equal; set_solver|done].
Qed.

Lemma finish_module_wf m D dl ol :
  wf_module m → (∀ dc, dc ∈ dl → dc ∈ GetConstants m) →
  module_after (finish m D dl ol) = mask (list_to_set ol ∪ list_to_set dl) m.
Proof.
  intros [Hu Hc] Hdl. unfold finish; simpl.
  rewrite <- (mask_empty m) at 1.
  rewrite kill_dead_consts_wf, foldl_KillInst_mask; [f_equal; set_solver|done|].
  intros dc Hin. specialize (Hdl dc Hin). split.
  - by eapply GetConstants_lt.
  - by apply Hc.
Qed.

(** ** Well-formed modules: every use by a dead constant is given back *)

Lemma hits_walked_wf m u c :
  wf_module m → u ∈ GetConstants m → c ∈ GetConstants m →
  hits m c (walked m u) = real_uses m (result_id (deref m c)) u.
Proof.
  intros [Hu Hwf] Hin Hc. unfold walked, real_uses.
  apply elem_of_GetConstants in Hin as Hin'. destruct Hin' as [Hlt Hk].
  rewrite (constant_not_metadata _ Hk), id_positions_length.
  destruct (Hwf c Hc) as [Hid _].
  apply elem_of_GetConstants in Hc as [Hclt _].
  destruct (propagates (opcode (deref m u))) eqn:E.
  - unfold hits. f_equal. apply list_filter_iff. intros op. split.
    + apply targets_is_id_use.
    + unfold is_id_use. intros [Ht Hw]%andb_prop.
      apply bool_decide_eq_true in Ht, Hw. apply targets_true. split; [done|].
      rewrite Hw. by apply GetDef_unique.
  - unfold hits; simpl. symmetry. apply length_zero_iff_nil.
    destruct (Hwf u Hin) as [_ Hops]. specialize (Hops E).
    induction (in_operands (deref m u)) as [|op ops IH]; [done|].
    rewrite filter_cons, decide_False.
    + apply IH. intros op' Hop'. apply Hops. by right.
    + unfold is_id_use. rewrite bool_decide_eq_false_2; [done|].
      apply Hops. by left.
Qed.

Lemma sum_list_with_add {A} (f g : A → nat) (l : list A) :
  sum_list_with (λ a, f a + g a) l = sum_list_with f l + sum_list_with g l.
Proof. induction l as [|a l IH]; simpl; [done|]. rewrite IH. lia. Qed.

Lemma real_uses_mask K m id u :
  real_uses (mask K m) id u = if decide (u ∈ K) then 0 else real_uses m id u.
Proof. unfold real_uses. rewrite deref_mask. by case_decide. Qed.

Lemma count_uses_mask K m id :
  count_uses (mask K m) id =
  sum_list_with (λ u, if decide (u ∈ K) then 0 else real_uses m id u)
                (seq 0 (length m)).
Proof.
  rewrite count_uses_sum, length_mask. apply sum_list_with_ext'.
  intros u _. apply real_uses_mask.
Qed.

Lemma elem_of_GetConstants_mask K m c :
  c ∈ GetConstants (mask K m) ↔ c ∈ GetConstants m ∧ c ∉ K.
Proof.
  rewrite !elem_of_GetConstants, length_mask, deref_mask.
  case_decide; simpl; naive_solver.
Qed.

(** After the dead constants and metadata are gone, what a surviving
    constant still counts is what its entry held when the loop ended. *)
Lemma count_uses_after m st K c :
  wf_module m → Inv m st → dead_consts st ⊆ K →
  (∀ u, u ∈ K → u ∈ dead_consts st ∨ is_metadata (opcode (deref m u)) = true) →
  c ∈ GetConstants m →
  released m (dead_consts st) c + count_uses (mask K m) (result_id (deref m c))
  = count_uses m (result_id (deref m c)).
Proof.
  intros Hwf HI Hsub HK Hc.
  rewrite count_uses_mask, count_uses_sum. unfold released.
  rewrite <- sum_list_with_add. apply sum_list_with_ext'. intros u _.
  destruct (decide (u ∈ dead_consts st)) as [Hd|Hnd].
  - rewrite decide_True by set_solver.
    rewrite hits_walked_wf; [lia|done| |done].
    eapply Inv_dead_constants; [done|set_solver].
  - case_decide as HuK; [|done].
    destruct (HK u HuK) as [?|Hmeta]; [done|].
    unfold real_uses. by rewrite Hmeta.
Qed.

Lemma survivor_counted m st K c :
  wf_module m → Inv m st → working_list st = ∅ → dead_consts st ⊆ K →
  (∀ u, u ∈ K → u ∈ dead_consts st ∨ is_metadata (opcode (deref m u)) = true) →
  c ∈ GetConstants m → c ∉ dead_consts st →
  0 < count_uses (mask K m) (result_id (deref m c)).
Proof.
  intros Hwf HI He Hsub HK Hc Hnd.
  pose proof (count_uses_after m st K c Hwf HI Hsub HK Hc) as Heq.
  destruct (decide (count_uses m (result_id (deref m c))
                    = released m (dead_consts st) c)) as [Hz|Hnz]; [|lia].
  assert (c ∈ working_list st ∪ dead_consts st) by (by apply (inv_zero _ _ HI)).
  set_solver.
Qed.

Lemma loop_run_empty m st r :
  working_list st = ∅ → loop_run m st r → r = Ok st.
Proof.
  intros He Hrun.
  destruct Hrun as [st|st inst st1 r Hin _ _|st inst Hin _]; [done| |];
    rewrite He in Hin; by apply not_elem_of_empty in Hin.
Qed.

(** A module whose constants all have a counted use is left alone. *)
Lemma Process_run_idle m r :
  (∀ c, c ∈ GetConstants m → 0 < count_uses m (result_id (deref m c))) →
  Process_run m r → r = Ok (mkOutcome SuccessWithoutChange ∅ ∅ [] [] m).
Proof.
  intros Hpos Hrun.
  assert (∀ cs, cs ≡ₚ GetConstants m → working_list (initial_state m cs) = ∅)
    as Hw.
  { intros cs Hp. apply set_eq. intros d.
    rewrite initial_state_working by done. split; [|set_solver].
    intros [Hd Hz]. specialize (Hpos d Hd). lia. }
  destruct Hrun as [cs st dl ol Hp Hrun Hdl Hol|cs Hp Hrun].
  - apply loop_run_empty in Hrun as [= ->]; [|by apply Hw].
    rewrite initial_state_dead in Hdl |- *. rewrite elements_empty in Hdl.
    apply Permutation_nil_r in Hdl as ->.
    unfold collect_dead_others in Hol; simpl in Hol.
    rewrite elements_empty in Hol. apply Permutation_nil_r in Hol as ->.
    unfold finish; simpl. by rewrite decide_True.
  - apply loop_run_empty in Hrun; [done|by apply Hw].
Qed.

(** ** Executable companions *)

Lemma loop_along_run schedule m st r :
  loop_along schedule m st = Some r → loop_run m st r.
Proof.
  revert st. induction schedule as [|inst rest IH]; intros st; simpl.
  - case_decide; [|done]. intros [= <-]. by apply loop_exit.
  - case_decide; [|done].
    destruct (loop_body m st inst) as [st1|] eqn:E.
    + intros Hr. eapply loop_iterate; [done|done|by apply IH].
    + intros [= <-]. by eapply loop_abort.
Qed.

Lemma NoDup_filter_fmap_lookup {A} (f : A → nat) (P : nat → Prop)
    `{!∀ x, Decision (P x)} (l : list A) i j x y :
  NoDup (filter P (f <$> l)) →
  l !! i = Some x → l !! j = Some y → f x = f y → P (f x) → i = j.
Proof.
  revert i j. induction l as [|a l IH]; intros i j Hnd Hi Hj Hf HP; [done|].
  rewrite fmap_cons, filter_cons in Hnd.
  assert (∀ k z, l !! k = Some z → f z = f a → P (f a) → False) as Hhead.
  { intros k z Hk Hz Ha. rewrite decide_True in Hnd by done.
    apply NoDup_cons in Hnd as [Hnin _]. apply Hnin.
    apply list_elem_of_filter. split; [done|].
    apply list_elem_of_fmap. exists z. split; [done|].
    apply list_elem_of_lookup. by exists k. }
  assert (NoDup (filter P (f <$> l))) as Hnd'.
  { case_decide; [by apply NoDup_cons in Hnd as [_ ?]|done]. }
  destruct i as [|i], j as [|j]; simpl in *.
  - done.
  - injection Hi as ->. exfalso. eapply Hhead; [done|done|done].
  - injection Hj as ->. exfalso. eapply Hhead; [done|done|]. by rewrite <- Hf.
  - f_equal. by eapply IH.
Qed.

Lemma wf_moduleb_sound m : wf_moduleb m = true → wf_module m.
Proof.
  unfold wf_moduleb, check_ids.
  intros [Hids Hcs]%andb_prop. apply bool_decide_eq_true in Hids.
  rewrite forallb_forall in Hcs. split.
  - intros i j Hi Hj Heq Hne.
    eapply (NoDup_filter_fmap_lookup result_id (λ id, id ≠ 0) m);
      [done|by apply lookup_deref|by apply lookup_deref|done|done].
  - intros c [Hlt Hk]%elem_of_GetConstants.
    assert (check_constant (deref m c) = true) as Hc.
    { apply Hcs, list_elem_of_In, list_elem_of_lookup. exists c.
      by apply lookup_deref. }
    unfold check_constant in Hc. rewrite Hk in Hc. simpl in Hc.
    apply andb_prop in Hc as [Hid Hops]. split.
    + apply negb_true_iff, bool_decide_eq_false in Hid. done.
    + intros Hp. rewrite Hp in Hops. simpl in Hops.
      rewrite forallb_forall in Hops. intros op Hop.
      apply list_elem_of_In, Hops, negb_true_iff, bool_decide_eq_false in Hop. done.
Qed.

Lemma for_each_app {A S} (f : S → A → Result S) s l1 l2 :
  for_each f s (l1 ++ l2) = bind (for_each f s l1) (λ s', for_each f s' l2).
Proof.
  revert s. induction l1 as [|a l1 IH]; intros s; simpl; [done|].
  destruct (f s a); simpl; [apply IH|done].
Qed.

Lemma reachable_Inv m constants n st :
  constants ≡ₚ GetConstants m →
  loop_steps m n (initial_state m constants) st →
  Inv m st ∧ size (dead_consts st) = n.
Proof.
  intros Hp Hsteps.
  destruct (loop_steps_Inv _ _ _ _ (Inv_initial m constants Hp) Hsteps)
    as (HI & Hsz & _).
  split; [done|]. rewrite Hsz, initial_state_dead, size_empty. lia.
Qed.

Lemma is_metadata_false op :
  is_metadata op = false ↔
  IsAnnotationInst op = false ∧ IsDebug1Inst op = false ∧
  IsDebug2Inst op = false ∧ IsDebug3Inst op = false.
Proof. unfold is_metadata. rewrite !orb_false_iff. tauto. Qed.

Lemma Process_sound m r : Process m = Some r → Process_run m r.
Proof.
  intros HP. destruct (Process_total m) as (o & HP' & Hrun).
  rewrite HP in HP'. by injection HP' as ->.
Qed.

Lemma finish_dead_others_killed m D dl ol u :
  u ∈ ol → u < length m → deref (module_after (finish m D dl ol)) u = nop.
Proof.
  intros Hu Hlt. destruct (finish_module_general m D dl ol) as (K & -> & _).
  rewrite deref_mask, decide_True; [done|].
  apply elem_of_union_l, elem_of_list_to_set. done.
Qed.

Lemma module_after_survivors m st dl ol :
  wf_module m → Inv m st → working_list st = ∅ →
  dl ≡ₚ elements (dead_consts st) →
  ol ≡ₚ elements (collect_dead_others m dl) →
  ∀ c, c ∈ GetConstants (module_after (finish m (dead_consts st) dl ol)) →
       0 < count_uses (module_after (finish m (dead_consts st) dl ol))
             (result_id (deref (module_after (finish m (dead_consts st) dl ol)) c)).
Proof.
  intros Hwf HI He Hdl Hol c.
  rewrite finish_module_wf; [|done|].
  2:{ intros dc Hdc. rewrite Hdl in Hdc. apply elem_of_elements in Hdc.
      eapply Inv_dead_constants; [done|set_solver]. }
  set (K := list_to_set ol ∪ list_to_set dl : gset nat).
  assert (dead_consts st ⊆ K) as Hsub.
  { intros d Hd. apply elem_of_union_r, elem_of_list_to_set.
    rewrite Hdl. by apply elem_of_elements. }
  assert (∀ u, u ∈ K →
            u ∈ dead_consts st ∨ is_metadata (opcode (deref m u)) = true) as HK.
  { intros u [Hu|Hu]%elem_of_union; apply elem_of_list_to_set in Hu.
    - right. rewrite Hol in Hu. apply elem_of_elements in Hu.
      by apply collect_dead_others_spec in Hu as (_ & _ & _ & ?).
    - left. rewrite Hdl in Hu. by apply elem_of_elements in Hu. }
  intros [Hc HcK]%elem_of_GetConstants_mask.
  rewrite deref_mask, decide_False by done.
  apply (survivor_counted m st K c); try done.
  intros Hd. apply HcK. by apply Hsub.
Qed.

(** ** The scenarios of the specification, run *)

Example scenario_A_removed :
  Process scenario_A
  = Some (Ok (mkOutcome SuccessWithChange {[0]} ∅ [1] [] [nop])).
Proof. vm_compute. reflexivity. Qed.

Example scenario_B_unchanged :
  Process scenario_B
  = Some (Ok (mkOutcome SuccessWithoutChange ∅ ∅ [] [] scenario_B)).
Proof. vm_compute. reflexivity. Qed.

Example scenario_C_both_removed :
  Process scenario_C
  = Some (Ok (mkOutcome SuccessWithChange {[0; 1]} ∅ [2; 1] [] [nop; nop])).
Proof. vm_compute. reflexivity. Qed.

Example scenario_D_decoration_removed :
  Process scenario_D
  = Some (Ok (mkOutcome SuccessWithChange {[0; 2]} {[1]} [2; 1] [1]
                [nop; nop; nop])).
Proof. vm_compute. reflexivity. Qed.

Example scenario_E_name_removed :
  Process scenario_E
  = Some (Ok (mkOutcome SuccessWithChange {[0]} {[1]} [1] [1] [nop; nop])).
Proof. vm_compute. reflexivity. Qed.

(** * The claims *)

(** C2: the count that phase 1 stores for a constant [c] is the number
    of (user, operand position) uses of the result identifier of [c] whose
    user is neither an annotation nor a debug instruction of tier 1, 2 or
    3; [c] starts in the working list exactly when that number is zero.
    The uses are the pairs the def-use index enumerates, each once. *)
Theorem use_count_exact (m : Module) (constants : list nat) (c : nat) :
  constants ≡ₚ GetConstants m → c ∈ GetConstants m →
  let uses := ForEachUse m (result_id (deref m c)) in
  let real :=
    filter (λ use, let op := opcode (deref m use.1) in
                   IsAnnotationInst op = false ∧ IsDebug1Inst op = false ∧
                   IsDebug2Inst op = false ∧ IsDebug3Inst op = false) uses in
  NoDup uses ∧
  (∀ user index,
     (user, index) ∈ uses ↔
     user < length m ∧
     ∃ op, in_operands (deref m user) !! index = Some op ∧
           type op = SPV_OPERAND_TYPE_ID ∧ word op = result_id (deref m c)) ∧
  use_counts (initial_state m constants) !! c = Some (length real) ∧
  (c ∈ working_list (initial_state m constants) ↔ length real = 0).
Proof.
  intros Hp Hc uses real.
  assert (count_uses m (result_id (deref m c)) = length real) as Hcount.
  { rewrite count_uses_filter. unfold real, uses. f_equal.
    apply list_filter_iff. intros [u j]. simpl. apply is_metadata_false. }
  split_and!.
  - apply ForEachUse_NoDup.
  - intros user index. unfold uses. rewrite ForEachUse_spec.
    unfold is_id_use. setoid_rewrite andb_true_iff.
    setoid_rewrite bool_decide_eq_true. done.
  - rewrite initial_state_counts, decide_True by done. by rewrite Hcount.
  - rewrite initial_state_working by done. rewrite Hcount. tauto.
Qed.

Lemma use_count_exact_witness :
  use_counts (initial_state scenario_B (GetConstants scenario_B)) !! 0 = Some 2
  ∧ (0 ∈ working_list (initial_state scenario_B (GetConstants scenario_B))
     ↔ 2 = 0).
Proof.
  destruct (use_count_exact scenario_B (GetConstants scenario_B) 0)
    as (_ & _ & Hcount & Hwork).
  - reflexivity.
  - apply elem_of_GetConstants. split; [simpl; lia|reflexivity].
  - split; [exact Hcount|exact Hwork].
Defined.

(** C4: in every state the loop reaches from the counts of phase 1, and
    for every instruction that can be drawn, each decrement finds a
    strictly positive count, so that the iteration ends normally; a zero
    count at a decrement is the assertion failure and nothing else; no
    run of the loop, and no execution of the pass, ends in that
    failure. *)
Theorem assertion_unreachable (m : Module) (constants : list nat) (n : nat)
    (st : PassState) (inst : nat) :
  constants ≡ₚ GetConstants m →
  loop_steps m n (initial_state m constants) st →
  inst ∈ working_list st →
  (∃ st', loop_body m st inst = Ok st') ∧
  (∀ pre op post st1 def_inst count,
     walked m inst = pre ++ op :: post →
     for_each (visit_operand m) st pre = Ok st1 →
     type op = SPV_OPERAND_TYPE_ID →
     GetDef m (word op) = Some def_inst →
     use_counts st1 !! def_inst = Some count → 0 < count) ∧
  (∀ st0 op def_inst,
     type op = SPV_OPERAND_TYPE_ID →
     GetDef m (word op) = Some def_inst →
     use_counts st0 !! def_inst = Some 0 →
     visit_operand m st0 op = AssertionFailure) ∧
  (∀ r, loop_run m st r → r ≠ AssertionFailure) ∧
  ¬ Process_run m AssertionFailure.
Proof.
  intros Hp Hsteps Hin.
  destruct (reachable_Inv m constants n st Hp Hsteps) as [HI _].
  destruct (loop_body_Inv m st inst HI Hin) as (st' & Hbody & _).
  assert (∀ st0 op def_inst,
            type op = SPV_OPERAND_TYPE_ID →
            GetDef m (word op) = Some def_inst →
            use_counts st0 !! def_inst = Some 0 →
            visit_operand m st0 op = AssertionFailure) as Hfail.
  { intros st0 op d Ht Hd Hz. unfold visit_operand.
    rewrite decide_False by (intros Hne; by apply Hne).
    by rewrite Hd, Hz. }
  split_and!.
  - by exists st'.
  - intros pre op post st1 d count Hw Hpre Ht Hd Hcount.
    rewrite loop_body_walked, Hw, for_each_app, Hpre in Hbody. simpl in Hbody.
    destruct count as [|count]; [|lia].
    by rewrite (Hfail st1 op d Ht Hd Hcount) in Hbody.
  - done.
  - intros r Hrun ->.
    by destruct (loop_run_Inv m st _ HI Hrun) as (? & ? & _).
  - intros Hrun. by destruct (Process_run_inv m _ Hrun) as (? & ? & ? & ? & _).
Qed.

Lemma assertion_unreachable_witness :
  ∃ st', loop_body scenario_C
           (initial_state scenario_C (GetConstants scenario_C)) 1 = Ok st'.
Proof.
  destruct (assertion_unreachable scenario_C (GetConstants scenario_C) 0
              (initial_state scenario_C (GetConstants scenario_C)) 1)
    as (Hok & _).
  - reflexivity.
  - apply steps_zero.
  - vm_compute. reflexivity.
  - exact Hok.
Defined.

(** C5: an iteration on an instruction whose opcode is none of
    [OpConstantComposite], [OpSpecConstantComposite], [OpSpecConstantOp]
    leaves every count as it was; an operand that is not an identifier
    reference (the sub-opcode of a specialization constant operation among
    them) is never counted as a use and never decrements anything; an
    identifier operand without a definition, or whose definition has no
    count, is skipped. *)
Theorem operands_guarded (m : Module) (st : PassState) :
  (∀ inst, propagates (opcode (deref m inst)) = false →
     loop_body m st inst =
       Ok (mkState (use_counts st) (working_list st ∖ {[inst]})
                   ({[inst]} ∪ dead_consts st))) ∧
  (∀ op, propagates op = true ↔
         op = SpvOpConstantComposite ∨ op = SpvOpSpecConstantComposite
         ∨ op = SpvOpSpecConstantOp) ∧
  (∀ op, type op ≠ SPV_OPERAND_TYPE_ID → visit_operand m st op = Ok st) ∧
  (∀ w, visit_operand m st (mkOperand SPV_OPERAND_TYPE_SPEC_CONSTANT_OP_NUMBER w)
        = Ok st) ∧
  (∀ user index op id,
     in_operands (deref m user) !! index = Some op →
     type op ≠ SPV_OPERAND_TYPE_ID → (user, index) ∉ ForEachUse m id) ∧
  (∀ op, type op = SPV_OPERAND_TYPE_ID → GetDef m (word op) = None →
         visit_operand m st op = Ok st) ∧
  (∀ op def_inst,
     type op = SPV_OPERAND_TYPE_ID → GetDef m (word op) = Some def_inst →
     use_counts st !! def_inst = None → visit_operand m st op = Ok st).
Proof.
  split_and!.
  - intros inst Hp. unfold loop_body. by rewrite Hp.
  - intros op. destruct op; simpl; naive_solver.
  - intros op Ht. unfold visit_operand. by rewrite decide_True.
  - intros w. unfold visit_operand. by rewrite decide_True.
  - intros user index op id Hop Ht [_ (op' & Hop' & Huse)]%ForEachUse_spec.
    rewrite Hop in Hop'. injection Hop' as <-.
    unfold is_id_use in Huse. apply andb_prop in Huse as [Huse _].
    by apply bool_decide_eq_true in Huse.
  - intros op Ht Hd. unfold visit_operand.
    rewrite decide_False by (intros Hne; by apply Hne). by rewrite Hd.
  - intros op d Ht Hd Hn. unfold visit_operand.
    rewrite decide_False by (intros Hne; by apply Hne). by rewrite Hd, Hn.
Qed.

(** C7: the loop terminates.  An iteration takes the drawn instruction
    out of the working list and puts it into the dead set, where it was
    not before; the dead set only grows and stays apart from the working
    list, so nothing comes back; after [n] iterations the dead set has [n]
    members, all constants, so [n] is at most the number of constants;
    with that many iterations allowed the loop ends with an empty working
    list. *)
Theorem loop_terminates (m : Module) (constants : list nat) :
  constants ≡ₚ GetConstants m →
  (∀ n st, loop_steps m n (initial_state m constants) st →
     n ≤ length (GetConstants m) ∧
     size (dead_consts st) = n ∧
     working_list st ## dead_consts st ∧
     (∀ inst st', inst ∈ working_list st → loop_body m st inst = Ok st' →
        (inst ∉ dead_consts st) ∧
        dead_consts st' = {[inst]} ∪ dead_consts st ∧
        (inst ∉ working_list st') ∧
        working_list st ∖ {[inst]} ⊆ working_list st') ∧
     (∀ k st2, loop_steps m k st st2 →
        dead_consts st ⊆ dead_consts st2 ∧
        working_list st2 ## dead_consts st)) ∧
  ∃ st', loop (length (GetConstants m)) m (initial_state m constants)
         = Some (Ok st') ∧ working_list st' = ∅.
Proof.
  intros Hp. split.
  - intros n st Hsteps.
    destruct (reachable_Inv m constants n st Hp Hsteps) as [HI Hsz].
    split_and!.
    + rewrite <- Hsz. by apply Inv_dead_size.
    + done.
    + apply (inv_disjoint _ _ HI).
    + intros inst st' Hin Hbody.
      destruct (loop_body_Inv m st inst HI Hin)
        as (st1 & Hb & _ & Hd & Hnd & _ & Hnw & Hsub).
      rewrite Hbody in Hb. injection Hb as <-. done.
    + intros k st2 Hk.
      destruct (loop_steps_Inv m k st st2 HI Hk) as (HI2 & _ & Hsub).
      split; [done|]. pose proof (inv_disjoint _ _ HI2). set_solver.
  - destruct (loop_total m (length (GetConstants m)) (initial_state m constants))
      as (st' & Hl & Hrun); [by apply Inv_initial|lia|].
    exists st'. split; [done|].
    by destruct (loop_run_Inv m _ _ (Inv_initial m constants Hp) Hrun)
      as (? & [= <-] & _ & ?).
Qed.

Lemma loop_terminates_witness :
  ∃ st', loop 3 spec_op_module
           (initial_state spec_op_module (GetConstants spec_op_module))
         = Some (Ok st') ∧ working_list st' = ∅.
Proof.
  destruct (loop_terminates spec_op_module (GetConstants spec_op_module))
    as [_ Hend].
  - reflexivity.
  - exact Hend.
Defined.

(** C8: an execution of the pass ends with one of the two success
    statuses: "without change" exactly when the dead set is empty, "with
    change" exactly when it is not. *)
Theorem status_reports_change (m : Module) (r : Result Outcome) :
  Process_run m r →
  ∃ o, r = Ok o ∧
    (status o = SuccessWithoutChange ↔ dead_set o = ∅) ∧
    (status o = SuccessWithChange ↔ dead_set o ≠ ∅) ∧
    (status o = SuccessWithoutChange ∨ status o = SuccessWithChange).
Proof.
  intros Hrun. destruct (Process_run_inv m r Hrun) as (st & dl & ol & -> & _).
  eexists. split; [done|]. unfold finish; simpl.
  case_decide; split_and!; try done; auto.
Qed.

Lemma status_reports_change_witness :
  Process scenario_A
  = Some (Ok (mkOutcome SuccessWithChange {[0]} ∅ [1] [] [nop]))
  ∧ ({[0]} : gset nat) ≠ ∅.
Proof.
  assert (Process scenario_A
          = Some (Ok (mkOutcome SuccessWithChange {[0]} ∅ [1] [] [nop])))
    as HP by (vm_compute; reflexivity).
  destruct (status_reports_change scenario_A _ (Process_sound _ _ HP))
    as (o & [= <-] & _ & Hchange & _).
  split; [exact HP|]. apply Hchange. reflexivity.
Defined.

(** C6: two executions of the pass on one module, whatever the order in
    which the constants are enumerated, the instructions drawn from the
    working list and the final sets walked, end normally with the same
    dead set, the same dead metadata and the same status. *)
Theorem order_independent (m : Module) (r1 r2 : Result Outcome) :
  Process_run m r1 → Process_run m r2 →
  ∃ o1 o2, r1 = Ok o1 ∧ r2 = Ok o2 ∧
    dead_set o1 = dead_set o2 ∧
    dead_others o1 = dead_others o2 ∧
    status o1 = status o2.
Proof.
  intros H1 H2.
  destruct (Process_run_inv m r1 H1) as (st1 & dl1 & ol1 & -> & HI1 & He1 & Hdl1 & _).
  destruct (Process_run_inv m r2 H2) as (st2 & dl2 & ol2 & -> & HI2 & He2 & Hdl2 & _).
  pose proof (final_dead_unique m st1 st2 HI1 He1 HI2 He2) as Hdead.
  do 2 eexists. split_and!; [done|done|..]; unfold finish; simpl.
  - done.
  - apply collect_dead_others_perm. by rewrite Hdl1, Hdl2, Hdead.
  - by rewrite Hdead.
Qed.

Lemma order_independent_witness :
  ∃ o1 o2,
    Process_run spec_op_module (Ok o1) ∧ Process_run spec_op_module (Ok o2) ∧
    dead_set o1 = dead_set o2 ∧ dead_others o1 = dead_others o2 ∧
    status o1 = status o2.
Proof.
  assert (∃ st, loop_along [2; 0; 1] spec_op_module
                  (initial_state spec_op_module [0; 1; 2]) = Some (Ok st))
    as [st1 Hst1] by (eexists; vm_compute; reflexivity).
  assert (∃ st, loop_along [2; 1; 0] spec_op_module
                  (initial_state spec_op_module [1; 0; 2]) = Some (Ok st))
    as [st2 Hst2] by (eexists; vm_compute; reflexivity).
  assert (Process_run spec_op_module
            (Ok (finish spec_op_module (dead_consts st1)
                   (elements (dead_consts st1))
                   (elements (collect_dead_others spec_op_module
                                (elements (dead_consts st1))))))) as H1.
  { eapply (Process_ok _ [0; 1; 2]); [reflexivity| |reflexivity|reflexivity].
    by eapply loop_along_run. }
  assert (Process_run spec_op_module
            (Ok (finish spec_op_module (dead_consts st2)
                   (elements (dead_consts st2))
                   (elements (collect_dead_others spec_op_module
                                (elements (dead_consts st2))))))) as H2.
  { eapply (Process_ok _ [1; 0; 2]); [apply perm_swap| |reflexivity|reflexivity].
    by eapply loop_along_run. }
  destruct (order_independent spec_op_module _ _ H1 H2)
    as (o1 & o2 & [= <-] & [= <-] & Hd & Ho & Hs).
  do 2 eexists. split; [exact H1|]. split; [exact H2|].
  split; [exact Hd|]. split; [exact Ho|exact Hs].
Defined.

(** C1, amended: the dead-metadata set holds exactly the annotation and
    debug instructions that reference at least one dead constant, whether
    or not they reference live constants as well.  Each of them is turned
    into a no-op; an instruction outside that set that shares its result
    identifier with no dead constant is left as it was. *)
Theorem dead_metadata_exact (m : Module) (o : Outcome) :
  Process_run m (Ok o) →
  (∀ u, u ∈ dead_others o ↔
        u < length m ∧ is_metadata (opcode (deref m u)) = true ∧
        ∃ c, c ∈ dead_set o ∧ refers_to m u c) ∧
  (∀ u, u ∈ dead_others o → deref (module_after o) u = nop) ∧
  (∀ u, u ∉ dead_others o →
        (∀ c, c ∈ dead_set o →
              result_id (deref m c) ≠ result_id (deref m u)) →
        deref (module_after o) u = deref m u).
Proof.
  intros Hrun.
  destruct (Process_run_inv m _ Hrun) as (st & dl & ol & [= ->] & HI & He & Hdl & Hol).
  assert (∀ u, u ∈ dead_others (finish m (dead_consts st) dl ol) ↔
               u < length m ∧ is_metadata (opcode (deref m u)) = true ∧
               ∃ c, c ∈ dead_consts st ∧ refers_to m u c) as Hspec.
  { intros u. unfold finish; simpl. by apply dead_others_of_run. }
  split_and!.
  - done.
  - intros u Hu. apply finish_dead_others_killed.
    + rewrite Hol. by apply elem_of_elements.
    + by apply Hspec in Hu as [? _].
  - intros u Hu Hid.
    destruct (finish_module_general m (dead_consts st) dl ol) as (K & -> & HK).
    rewrite deref_mask. case_decide as HuK; [|done]. exfalso.
    apply elem_of_union in HuK as [Hin|Hin].
    + apply Hu. unfold finish; simpl.
      apply elem_of_list_to_set in Hin. rewrite Hol in Hin.
      by apply elem_of_elements in Hin.
    + destruct (HK u Hin) as (_ & dc & Hdc & Heq & _).
      apply (Hid dc); [|done]. unfold finish; simpl.
      rewrite Hdl in Hdc. by apply elem_of_elements in Hdc.
Qed.

Lemma dead_metadata_exact_witness :
  3 ∈ dead_others (mkOutcome SuccessWithChange {[0]} {[3]} [1] [3]
                     (<[0 := nop]> (<[3 := nop]> shared_decoration)))
  ↔ 3 < length shared_decoration
    ∧ is_metadata (opcode (deref shared_decoration 3)) = true
    ∧ ∃ c, c ∈ ({[0]} : gset nat) ∧ refers_to shared_decoration 3 c.
Proof.
  destruct (dead_metadata_exact shared_decoration
              (mkOutcome SuccessWithChange {[0]} {[3]} [1] [3]
                 (<[0 := nop]> (<[3 := nop]> shared_decoration))))
    as (Hexact & _).
  - apply Process_sound. vm_compute. reflexivity.
  - exact (Hexact 3).
Defined.

(** The claim C1 as the specification words it fails on the module
    [shared_decoration]: the group decoration at position 3 references the
    live constant at position 1 and is removed all the same. *)
Lemma live_reference_not_preserved :
  ∃ o, Process shared_decoration = Some (Ok o) ∧
    Process_run shared_decoration (Ok o) ∧
    IsAnnotationInst (opcode (deref shared_decoration 3)) = true ∧
    1 ∈ GetConstants shared_decoration ∧
    (1 ∉ dead_set o) ∧
    refers_to shared_decoration 3 1 ∧
    3 ∈ dead_others o ∧
    deref (module_after o) 3 = nop ∧
    ¬ metadata_cleanup_as_stated shared_decoration o.
Proof.
  exists (mkOutcome SuccessWithChange {[0]} {[3]} [1] [3]
            (<[0 := nop]> (<[3 := nop]> shared_decoration))).
  assert (Process shared_decoration
          = Some (Ok (mkOutcome SuccessWithChange {[0]} {[3]} [1] [3]
                        (<[0 := nop]> (<[3 := nop]> shared_decoration)))))
    as HP by (vm_compute; reflexivity).
  assert (1 ∈ GetConstants shared_decoration) as Hconst.
  { apply elem_of_GetConstants. split; [simpl; lia|reflexivity]. }
  assert (refers_to shared_decoration 3 1) as Hrefers.
  { exists (ID 2). split; [|reflexivity].
    apply list_elem_of_lookup. by exists 2. }
  assert (1 ∉ ({[0]} : gset nat)) as Hlive.
  { intros ?%elem_of_singleton. done. }
  split_and!.
  - exact HP.
  - by apply Process_sound.
  - reflexivity.
  - exact Hconst.
  - exact Hlive.
  - exact Hrefers.
  - simpl. by apply elem_of_singleton.
  - reflexivity.
  - intros Hclaim. destruct (Hclaim 3) as [_ Hkeep]; [simpl; lia|reflexivity|].
    apply Hkeep; simpl.
    + exists 1. split; [exact Hconst|]. split; [exact Hrefers|exact Hlive].
    + by apply elem_of_singleton.
Qed.

(** C3: in a well-formed module, a constant each of whose uses sits in
    an annotation or debug instruction or in a constant of the final dead
    set is itself in the dead set, and its instruction is turned into a
    no-op.  The witness below is scenario C: the scalar under a dead
    composite goes with it. *)
Theorem dead_complete (m : Module) (o : Outcome) (c : nat) :
  wf_module m → Process_run m (Ok o) → c ∈ GetConstants m →
  (∀ user index,
     (user, index) ∈ ForEachUse m (result_id (deref m c)) →
     is_metadata (opcode (deref m user)) = true ∨ user ∈ dead_set o) →
  c ∈ dead_set o ∧ deref (module_after o) c = nop.
Proof.
  intros Hwf Hrun Hc Huses.
  destruct (Process_run_inv m _ Hrun) as (st & dl & ol & [= ->] & HI & He & Hdl & Hol).
  unfold finish in Huses; simpl in Huses.
  assert (c ∈ dead_consts st) as Hdead.
  { assert (c ∈ working_list st ∪ dead_consts st) as Hin; [|set_solver].
    apply (inv_zero _ _ HI). split; [done|].
    rewrite count_uses_sum. unfold released. apply sum_list_with_ext'.
    intros u Hu. apply elem_of_seq in Hu.
    destruct (decide (u ∈ dead_consts st)) as [Hd|Hnd].
    - symmetry. apply hits_walked_wf; [done| |done].
      eapply Inv_dead_constants; [done|set_solver].
    - unfold real_uses.
      destruct (is_metadata (opcode (deref m u))) eqn:E; [done|].
      apply length_zero_iff_nil, id_positions_nil. intros op Hop.
      apply not_true_is_false. intros Huse.
      apply list_elem_of_lookup in Hop as [j Hj].
      destruct (Huses u j) as [Hm|Hd]; [|congruence|done].
      apply ForEachUse_spec. split; [lia|]. by exists op. }
  split; [done|].
  rewrite finish_module_wf; [|done|].
  - rewrite deref_mask, decide_True; [done|].
    apply elem_of_union_r, elem_of_list_to_set. rewrite Hdl.
    by apply elem_of_elements.
  - intros dc Hdc. rewrite Hdl in Hdc. apply elem_of_elements in Hdc.
    eapply Inv_dead_constants; [done|set_solver].
Qed.

Lemma dead_complete_witness :
  Process scenario_C
  = Some (Ok (mkOutcome SuccessWithChange {[0; 1]} ∅ [2; 1] [] [nop; nop]))
  ∧ (0 ∈ ({[0; 1]} : gset nat) ∧ deref [nop; nop] 0 = nop)
  ∧ (1 ∈ ({[0; 1]} : gset nat) ∧ deref [nop; nop] 1 = nop).
Proof.
  assert (Process scenario_C
          = Some (Ok (mkOutcome SuccessWithChange {[0; 1]} ∅ [2; 1] [] [nop; nop])))
    as HP by (vm_compute; reflexivity).
  assert (wf_module scenario_C) as Hwf
    by (apply wf_moduleb_sound; vm_compute; reflexivity).
  pose proof (Process_sound _ _ HP) as Hrun.
  assert (0 ∈ GetConstants scenario_C) as Hc0
    by (apply elem_of_GetConstants; split; [simpl; lia|reflexivity]).
  assert (1 ∈ GetConstants scenario_C) as Hc1
    by (apply elem_of_GetConstants; split; [simpl; lia|reflexivity]).
  split; [exact HP|]. split.
  - refine (dead_complete scenario_C _ 0 Hwf Hrun Hc0 _).
    intros user index Hin. vm_compute in Hin.
    apply list_elem_of_singleton in Hin. injection Hin as -> ->.
    right. vm_compute. reflexivity.
  - refine (dead_complete scenario_C _ 1 Hwf Hrun Hc1 _).
    intros user index Hin. vm_compute in Hin.
    by apply elem_of_nil in Hin.
Defined.

(** C9: in a well-formed module the pass is idempotent.  On the module
    that one execution leaves, every further execution computes an empty
    dead set and an empty dead-metadata set, changes nothing and reports
    "no change"; [Process] is one of them. *)
Theorem pass_idempotent (m : Module) (o : Outcome) :
  wf_module m → Process_run m (Ok o) →
  (∀ r, Process_run (module_after o) r →
        r = Ok (mkOutcome SuccessWithoutChange ∅ ∅ [] [] (module_after o))) ∧
  Process (module_after o)
  = Some (Ok (mkOutcome SuccessWithoutChange ∅ ∅ [] [] (module_after o))).
Proof.
  intros Hwf Hrun.
  destruct (Process_run_inv m _ Hrun) as (st & dl & ol & [= ->] & HI & He & Hdl & Hol).
  pose proof (module_after_survivors m st dl ol Hwf HI He Hdl Hol) as Hpos.
  assert (∀ r, Process_run (module_after (finish m (dead_consts st) dl ol)) r →
               r = Ok (mkOutcome SuccessWithoutChange ∅ ∅ [] []
                         (module_after (finish m (dead_consts st) dl ol))))
    as Hidle by (intros r; by apply Process_run_idle).
  split; [done|].
  destruct (Process_total (module_after (finish m (dead_consts st) dl ol)))
    as (o2 & -> & Hrun2).
  by rewrite (Hidle _ Hrun2).
Qed.

Lemma pass_idempotent_witness :
  Process shared_decoration
  = Some (Ok (mkOutcome SuccessWithChange {[0]} {[3]} [1] [3]
                (<[0 := nop]> (<[3 := nop]> shared_decoration))))
  ∧ Process (<[0 := nop]> (<[3 := nop]> shared_decoration))
    = Some (Ok (mkOutcome SuccessWithoutChange ∅ ∅ [] []
                  (<[0 := nop]> (<[3 := nop]> shared_decoration)))).
Proof.
  assert (Process shared_decoration
          = Some (Ok (mkOutcome SuccessWithChange {[0]} {[3]} [1] [3]
                        (<[0 := nop]> (<[3 := nop]> shared_decoration)))))
    as HP by (vm_compute; reflexivity).
  assert (wf_module shared_decoration) as Hwf
    by (apply wf_moduleb_sound; vm_compute; reflexivity).
  split; [exact HP|].
  exact (proj2 (pass_idempotent shared_decoration _ Hwf (Process_sound _ _ HP))).
Defined.

(** C10: whatever the loop holds in its working list or dead set is one
    of the enumerated constants and has a use count; so [KillDef] is
    handed result identifiers of dead constants (or 0, which kills
    nothing, when an earlier call already removed the instruction; never
    in a well-formed module), [KillInst] is handed annotation or debug
    instructions that use a dead constant, and an instruction of the
    module changes only if it is one of those or defines the identifier of
    a dead constant, which in a well-formed module is the dead constant
    itself. *)
Theorem only_constants_touched (m : Module) (constants : list nat) :
  constants ≡ₚ GetConstants m →
  (∀ n st, loop_steps m n (initial_state m constants) st →
     ∀ i, i ∈ working_list st ∪ dead_consts st →
          i ∈ GetConstants m ∧ is_Some (use_counts st !! i)) ∧
  (∀ o, Process_run m (Ok o) →
     (∀ dc, dc ∈ dead_set o → dc ∈ GetConstants m) ∧
     (∀ id, id ∈ killed_defs o →
            ∃ dc, dc ∈ dead_set o ∧ dc ∈ GetConstants m ∧
                  (id = 0 ∨ id = result_id (deref m dc))) ∧
     (∀ u, u ∈ killed_insts o ↔ u ∈ dead_others o) ∧
     (∀ u, u ∈ dead_others o →
           is_metadata (opcode (deref m u)) = true ∧
           ∃ dc, dc ∈ dead_set o ∧ u ∈ ForEachUser m dc) ∧
     length (module_after o) = length m ∧
     (∀ i, deref (module_after o) i ≠ deref m i →
           i ∈ dead_others o ∨
           ∃ dc, dc ∈ dead_set o ∧
                 result_id (deref m i) = result_id (deref m dc) ∧
                 result_id (deref m i) ≠ 0) ∧
     (wf_module m →
      (∀ id, id ∈ killed_defs o ↔
             ∃ dc, dc ∈ dead_set o ∧ id = result_id (deref m dc)) ∧
      (∀ i, deref (module_after o) i ≠ deref m i →
            i ∈ dead_others o ∨ i ∈ dead_set o))).
Proof.
  intros Hp. split.
  - intros n st Hsteps i Hi.
    destruct (reachable_Inv m constants n st Hp Hsteps) as [HI _].
    pose proof (Inv_dead_constants m st i HI Hi) as Hc.
    split; [done|]. rewrite (inv_counts _ _ HI), decide_True by done. eauto.
  - intros o Hrun.
    destruct (Process_run_inv m _ Hrun)
      as (st & dl & ol & [= ->] & HI & He & Hdl & Hol).
    destruct (finish_module_general m (dead_consts st) dl ol) as (K & HK & HKin).
    assert (∀ dc, dc ∈ dl ↔ dc ∈ dead_consts st) as Hdl'.
    { intros dc. by rewrite Hdl, elem_of_elements. }
    assert (∀ dc, dc ∈ dead_consts st → dc ∈ GetConstants m) as Hconst.
    { intros dc Hdc. eapply Inv_dead_constants; [done|set_solver]. }
    assert (∀ i, deref (module_after (finish m (dead_consts st) dl ol)) i
                 ≠ deref m i →
                 i ∈ collect_dead_others m dl ∨
                 (i < length m ∧
                  ∃ dc, dc ∈ dead_consts st ∧
                        result_id (deref m i) = result_id (deref m dc) ∧
                        result_id (deref m i) ≠ 0)) as Hchanged.
    { intros i. rewrite HK, deref_mask. case_decide as HiK; [|done]. intros _.
      apply elem_of_union in HiK as [Hin|Hin].
      - left. apply elem_of_list_to_set in Hin. rewrite Hol in Hin.
        by apply elem_of_elements in Hin.
      - right. destruct (HKin i Hin) as (Hlt & dc & Hdc & Heq & Hne).
        split; [done|]. exists dc. split; [|done]. by apply Hdl'. }
    unfold finish; simpl. split_and!.
    + done.
    + intros id Hid. rewrite <- (mask_empty m) in Hid at 1.
      apply kill_def_calls_mask in Hid as (dc & Hdc & Hid).
      apply Hdl' in Hdc. exists dc. split_and!; [done|by apply Hconst|done].
    + intros u. by rewrite Hol, elem_of_elements.
    + intros u Hu.
      apply collect_dead_others_spec in Hu as (dc & Hdc & Hu & Hmeta).
      split; [done|]. exists dc. split; [by apply Hdl'|done].
    + unfold finish in HK; simpl in HK. rewrite HK. apply length_mask.
    + intros i Hi. destruct (Hchanged i Hi) as [?|[_ ?]]; [by left|by right].
    + intros [Hu Hwf]. split.
      * intros id. rewrite <- (mask_empty m) at 1.
        rewrite kill_def_calls_wf, list_elem_of_fmap; [|done| |].
        -- setoid_rewrite Hdl'. naive_solver.
        -- rewrite Hdl. apply NoDup_elements.
        -- intros dc Hdc%Hdl'%Hconst. split_and!; [by eapply GetConstants_lt| |set_solver].
           by apply Hwf.
      * intros i Hi.
        destruct (Hchanged i Hi) as [?|[Hlt (dc & Hdc & Heq & Hne)]];
          [by left|right].
        assert (dc < length m) as Hdclt by (by eapply GetConstants_lt, Hconst).
        by rewrite (Hu i dc Hlt Hdclt Heq Hne).
Qed.

Lemma only_constants_touched_witness :
  2 ∈ GetConstants scenario_D
  ∧ is_Some (use_counts
               (initial_state scenario_D (GetConstants scenario_D)) !! 2).
Proof.
  destruct (only_constants_touched scenario_D (GetConstants scenario_D))
    as [Hloop _].
  - reflexivity.
  - apply (Hloop 0 _ (steps_zero _ _) 2).
    apply elem_of_union_l. vm_compute. reflexivity.
Defined.

(** * Further properties of [Process] *)

(** ** Helpers *)

Lemma sum_list_with_eq_pointwise {A} (f g : A → nat) (l : list A) :
  (∀ a, a ∈ l → f a ≤ g a) →
  sum_list_with f l = sum_list_with g l →
  ∀ a, a ∈ l → f a = g a.
Proof.
  induction l as [|b l IH]; intros Hle Heq a Ha; [by apply elem_of_nil in Ha|].
  simpl in Heq.
  assert (f b ≤ g b) as Hb by (apply Hle; by left).
  assert (sum_list_with f l ≤ sum_list_with g l) as Hl.
  { apply sum_list_with_le. intros c Hc. apply Hle. by right. }
  apply elem_of_cons in Ha as [->|Ha]; [lia|].
  apply IH; [|lia|done]. intros c Hc. apply Hle. by right.
Qed.

(** When a constant has been given back all its counted uses, each
    instruction holds exactly the uses it gave back. *)
Lemma released_eq_pointwise m D d u :
  count_uses m (result_id (deref m d)) = released m D d →
  u < length m →
  real_uses m (result_id (deref m d)) u
  = if decide (u ∈ D) then hits m d (walked m u) else 0.
Proof.
  intros Heq Hu. rewrite count_uses_sum in Heq. unfold released in Heq.
  pose proof (sum_list_with_eq_pointwise
                (λ v, if decide (v ∈ D) then hits m d (walked m v) else 0)
                (real_uses m (result_id (deref m d))) (seq 0 (length m)))
    as Hpt.
  simpl in Hpt. symmetry. apply Hpt.
  - intros v _. case_decide; [apply hits_walked_le|lia].
  - done.
  - apply elem_of_seq. lia.
Qed.

Lemma feeds_real_uses m u d :
  feeds m u d ↔ u < length m ∧ 0 < real_uses m (result_id (deref m d)) u.
Proof.
  unfold feeds, real_uses. split.
  - intros [Hmeta [j Hj]]. apply ForEachUse_spec in Hj as [Hlt (op & Hop & Huse)].
    split; [done|]. rewrite Hmeta.
    assert (j ∈ id_positions 0 (result_id (deref m d)) (in_operands (deref m u)))
      as Hin by (apply id_positions_spec; by exists j, op).
    destruct (id_positions _ _ _); [by apply elem_of_nil in Hin|simpl; lia].
  - intros [Hlt Hpos].
    destruct (is_metadata (opcode (deref m u))) eqn:E; [lia|]. split; [done|].
    destruct (id_positions 0 (result_id (deref m d)) (in_operands (deref m u)))
      as [|j ps] eqn:Eps; [simpl in Hpos; lia|].
    assert (j ∈ id_positions 0 (result_id (deref m d)) (in_operands (deref m u)))
      as Hin by (rewrite Eps; by left).
    apply id_positions_spec in Hin as (k & op & -> & Hop & Huse).
    exists (0 + k). apply ForEachUse_spec. split; [done|]. by exists op.
Qed.

(** In a state that satisfies the invariant, the counted users of a
    constant of the working list or the dead set are dead composites. *)
Lemma Inv_users_dead m st d u :
  Inv m st → d ∈ working_list st ∪ dead_consts st → feeds m u d →
  u ∈ dead_consts st ∧ propagates (opcode (deref m u)) = true ∧
  GetDef m (result_id (deref m d)) = Some d.
Proof.
  intros HI Hd [Hlt Hpos]%feeds_real_uses.
  apply (inv_zero _ _ HI) in Hd as [_ Heq].
  rewrite (released_eq_pointwise m _ d u Heq Hlt) in Hpos.
  case_decide as Hu; [|lia]. split; [done|].
  unfold walked in Hpos.
  destruct (propagates (opcode (deref m u))) eqn:E;
    [|unfold hits in Hpos; simpl in Hpos; lia].
  split; [done|]. unfold hits in Hpos.
  destruct (filter _ _) as [|op ops] eqn:Ef; [simpl in Hpos; lia|].
  assert (op ∈ filter (λ op, targets m d op = true) (in_operands (deref m u)))
    as Hop by (rewrite Ef; by left).
  apply list_elem_of_filter in Hop as [Ht _].
  pose proof (targets_is_id_use _ _ _ Ht) as Huse.
  apply targets_true in Ht as [_ Hdef].
  unfold is_id_use in Huse. apply andb_prop in Huse as [_ Hw].
  apply bool_decide_eq_true in Hw. by rewrite <- Hw.
Qed.

Lemma loop_run_steps m st st' :
  loop_run m st (Ok st') → ∃ n, loop_steps m n st st' ∧ working_list st' = ∅.
Proof.
  intros Hrun. remember (Ok st') as r eqn:Hr.
  induction Hrun as [st He|st inst st1 r Hin Hbody _ IH|]; [| |done].
  - injection Hr as ->. exists 0. split; [constructor|done].
  - destruct (IH Hr) as (n & Hsteps & He). exists (S n).
    split; [by eapply steps_succ|done].
Qed.

(** Whatever holds of every instruction while it waits in the working
    list holds of every dead instruction. *)
Lemma dead_was_working m (Q : nat → Prop) n st st' :
  Inv m st →
  (∀ st0 d, Inv m st0 → d ∈ working_list st0 → Q d) →
  (∀ d, d ∈ dead_consts st → Q d) →
  loop_steps m n st st' → ∀ d, d ∈ dead_consts st' → Q d.
Proof.
  intros HI HQ Hdead Hsteps. induction Hsteps as [st|n st inst st1 st2 Hin Hbody _ IH].
  - done.
  - destruct (loop_body_Inv m st inst HI Hin) as (st1' & Hb & HI1 & Hd & _).
    rewrite Hbody in Hb. injection Hb as <-.
    apply IH; [done|]. intros d. rewrite Hd.
    intros [Hd'|?]%elem_of_union; [|by apply Hdead].
    apply elem_of_singleton in Hd'. subst d. exact (HQ st inst HI Hin).
Qed.

Lemma Process_run_steps m o :
  Process_run m (Ok o) →
  ∃ constants n st dl ol,
    constants ≡ₚ GetConstants m ∧
    loop_steps m n (initial_state m constants) st ∧
    Inv m st ∧ working_list st = ∅ ∧
    dl ≡ₚ elements (dead_consts st) ∧
    ol ≡ₚ elements (collect_dead_others m dl) ∧
    o = finish m (dead_consts st) dl ol.
Proof.
  intros Hrun. inversion Hrun as [cs st dl ol Hp Hloop Hdl Hol Ho|]; subst.
  destruct (loop_run_steps _ _ _ Hloop) as (n & Hsteps & He).
  destruct (reachable_Inv m cs n st Hp Hsteps) as [HI _].
  by exists cs, n, st, dl, ol.
Qed.

Lemma Inv_tc_dead m st d x :
  Inv m st → d ∈ working_list st ∪ dead_consts st → tc (feeds m) x d →
  x ∈ dead_consts st.
Proof.
  intros HI Hd Htc. induction Htc as [x d Hf|x y d Hf _ IH].
  - by destruct (Inv_users_dead m st d x HI Hd Hf).
  - assert (y ∈ working_list st ∪ dead_consts st) as Hy
      by (apply elem_of_union_r; by apply IH).
    by destruct (Inv_users_dead m st y x HI Hy Hf).
Qed.

Lemma count_uses_zero m d :
  count_uses m (result_id (deref m d)) = 0 ↔ ∀ user, ¬ feeds m user d.
Proof.
  rewrite count_uses_sum. split.
  - intros Hz user [Hlt Hpos]%feeds_real_uses.
    assert (real_uses m (result_id (deref m d)) user
            ≤ sum_list_with (real_uses m (result_id (deref m d)))
                (seq 0 (length m))); [|lia].
    apply sum_list_with_in, elem_of_seq. lia.
  - intros Hno.
    assert (sum_list_with (real_uses m (result_id (deref m d))) (seq 0 (length m))
            ≤ sum_list_with (λ _, 0) (seq 0 (length m))) as Hle.
    { apply sum_list_with_le. intros u Hu%elem_of_seq.
      destruct (decide (0 < real_uses m (result_id (deref m d)) u)) as [Hp|]; [|lia].
      destruct (Hno u). apply feeds_real_uses. split; [lia|done]. }
    assert (∀ l : list nat, sum_list_with (λ _ : nat, 0) l = 0) as Hz.
    { intros l. induction l as [|a l IH]; simpl; [done|lia]. }
    rewrite Hz in Hle. lia.
Qed.

Lemma wf_module_mask K m : wf_module m → wf_module (mask K m).
Proof.
  intros [Hu Hc]. split.
  - intros i j. rewrite !length_mask, !result_id_mask.
    intros Hi Hj. repeat case_decide; try done. by apply Hu.
  - intros c [Hcm HcK]%elem_of_GetConstants_mask.
    rewrite deref_mask, decide_False by done. by apply Hc.
Qed.

(** ** The properties *)

(** X1: soundness.  Every counted user of a dead constant is itself a
    dead constant with one of the three propagating opcodes, and the dead
    constant is the definition the index holds for its identifier: no
    instruction outside the dead set and the metadata refers to a removed
    constant. *)
Theorem dead_users_dead (m : Module) (o : Outcome) (d user : nat) :
  Process_run m (Ok o) → d ∈ dead_set o → feeds m user d →
  user ∈ dead_set o ∧ propagates (opcode (deref m user)) = true ∧
  GetDef m (result_id (deref m d)) = Some d.
Proof.
  intros Hrun Hd Hf.
  destruct (Process_run_inv m _ Hrun) as (st & dl & ol & [= ->] & HI & _).
  unfold finish in Hd |- *; simpl in Hd |- *.
  apply (Inv_users_dead m st d user HI); [set_solver|done].
Qed.

Lemma dead_users_dead_witness :
  1 ∈ ({[0; 1]} : gset nat)
  ∧ propagates (opcode (deref scenario_C 1)) = true
  ∧ GetDef scenario_C (result_id (deref scenario_C 0)) = Some 0.
Proof.
  refine (dead_users_dead scenario_C
            (mkOutcome SuccessWithChange {[0; 1]} ∅ [2; 1] [] [nop; nop])
            0 1 _ _ _).
  - apply Process_sound. vm_compute. reflexivity.
  - vm_compute. reflexivity.
  - split; [reflexivity|]. exists 0. vm_compute. left.
Defined.

(** X2: an instruction waits in the working list only once all its
    counted users are in the dead set; it is not among them. *)
Theorem working_users_dead (m : Module) (constants : list nat) (n : nat)
    (st : PassState) (d user : nat) :
  constants ≡ₚ GetConstants m →
  loop_steps m n (initial_state m constants) st →
  d ∈ working_list st → feeds m user d →
  user ∈ dead_consts st ∧ user ≠ d.
Proof.
  intros Hp Hsteps Hd Hf.
  destruct (reachable_Inv m constants n st Hp Hsteps) as [HI _].
  destruct (Inv_users_dead m st d user HI) as (Hu & _); [set_solver|done|].
  split; [done|]. intros ->. pose proof (inv_disjoint _ _ HI). set_solver.
Qed.

Lemma working_users_dead_witness :
  ∃ st, loop_body scenario_C
          (initial_state scenario_C (GetConstants scenario_C)) 1 = Ok st
        ∧ 1 ∈ dead_consts st ∧ 1 ≠ 0.
Proof.
  assert (∃ st, loop_body scenario_C
                  (initial_state scenario_C (GetConstants scenario_C)) 1 = Ok st
                ∧ 0 ∈ working_list st) as (st & Hbody & Hin).
  { eexists. split; [vm_compute; reflexivity|vm_compute; reflexivity]. }
  exists st. split; [exact Hbody|].
  refine (working_users_dead scenario_C (GetConstants scenario_C) 1 st 0 1
            _ _ Hin _).
  - reflexivity.
  - eapply steps_succ; [|exact Hbody|apply steps_zero].
    vm_compute. reflexivity.
  - split; [reflexivity|]. exists 0. vm_compute. left.
Defined.

(** X3: the dead set is closed under counted users, transitively:
    whatever reaches a dead constant through a chain of counted uses is
    dead, so nothing that a surviving instruction reaches, directly or
    through nested composites, is removed. *)
Theorem dead_closed_under_users (m : Module) (o : Outcome) (u d : nat) :
  Process_run m (Ok o) → rtc (feeds m) u d → d ∈ dead_set o → u ∈ dead_set o.
Proof.
  intros Hrun Hchain.
  destruct (Process_run_inv m _ Hrun) as (st & dl & ol & [= ->] & HI & _).
  unfold finish; simpl.
  induction Hchain as [|u y d Hf _ IH]; [done|].
  intros Hd.
  apply (Inv_users_dead m st y u HI); [|done].
  apply elem_of_union_r. by apply IH.
Qed.

Lemma dead_closed_under_users_witness : 1 ∈ ({[0; 1]} : gset nat).
Proof.
  refine (dead_closed_under_users scenario_C
            (mkOutcome SuccessWithChange {[0; 1]} ∅ [2; 1] [] [nop; nop])
            1 0 _ _ _).
  - apply Process_sound. vm_compute. reflexivity.
  - apply rtc_once. split; [reflexivity|]. exists 0. vm_compute. left.
  - vm_compute. reflexivity.
Defined.

(** X4: no dead constant lies on a cycle of counted uses; a composite
    that names itself, or composites that name each other, are never
    removed. *)
Theorem dead_acyclic (m : Module) (o : Outcome) (d : nat) :
  Process_run m (Ok o) → d ∈ dead_set o → ¬ tc (feeds m) d d.
Proof.
  intros Hrun Hd.
  destruct (Process_run_steps m o Hrun)
    as (cs & n & st & dl & ol & Hp & Hsteps & _ & _ & _ & _ & ->).
  unfold finish in Hd; simpl in Hd.
  apply (dead_was_working m (λ d, ¬ tc (feeds m) d d) n
           (initial_state m cs) st); [by apply Inv_initial| | |done|done].
  - intros st0 d0 HI Hin Htc.
    assert (d0 ∈ dead_consts st0)
      by (apply (Inv_tc_dead m st0 d0 d0); [done|set_solver|done]).
    pose proof (inv_disjoint _ _ HI). set_solver.
  - intros d0. rewrite initial_state_dead. set_solver.
Qed.

Lemma dead_acyclic_witness : ¬ tc (feeds scenario_C) 0 0.
Proof.
  refine (dead_acyclic scenario_C
            (mkOutcome SuccessWithChange {[0; 1]} ∅ [2; 1] [] [nop; nop])
            0 _ _).
  - apply Process_sound. vm_compute. reflexivity.
  - vm_compute. reflexivity.
Defined.

Example self_reference_kept :
  Process self_reference
  = Some (Ok (mkOutcome SuccessWithoutChange ∅ ∅ [] [] self_reference)).
Proof. vm_compute. reflexivity. Qed.

Example mutual_reference_kept :
  Process mutual_reference
  = Some (Ok (mkOutcome SuccessWithChange {[2]} ∅ [3] []
                (<[2 := nop]> mutual_reference))).
Proof. vm_compute. reflexivity. Qed.

(** X5: when the loop ends, the dead set is the set of instructions
    whose count is zero; every other constant holds a positive count and
    nothing else has an entry. *)
Theorem dead_iff_count_zero (m : Module) (constants : list nat)
    (st : PassState) (c : nat) :
  constants ≡ₚ GetConstants m →
  loop_run m (initial_state m constants) (Ok st) →
  (c ∈ dead_consts st ↔ use_counts st !! c = Some 0) ∧
  (c ∈ GetConstants m → c ∉ dead_consts st →
   ∃ k, use_counts st !! c = Some (S k)) ∧
  (c ∉ GetConstants m → use_counts st !! c = None).
Proof.
  intros Hp Hrun.
  destruct (loop_run_Inv m _ _ (Inv_initial m constants Hp) Hrun)
    as (st' & [= <-] & HI & He).
  pose proof (inv_zero _ _ HI c) as Hz. rewrite He in Hz.
  pose proof (released_le_count m (dead_consts st) c) as Hle.
  rewrite (inv_counts _ _ HI). split_and!.
  - case_decide as Hc.
    + split.
      * intros Hd. assert (c ∈ ∅ ∪ dead_consts st) as Hin by set_solver.
        apply Hz in Hin as [_ ->]. f_equal. lia.
      * intros [= Hk]. assert (c ∈ ∅ ∪ dead_consts st) as Hin; [|set_solver].
        apply Hz. split; [done|lia].
    + split; [|done]. intros Hd.
      assert (c ∈ ∅ ∪ dead_consts st) as Hin by set_solver.
      by apply Hz in Hin as [? _].
  - intros Hc Hnd. rewrite decide_True by done.
    destruct (count_uses m (result_id (deref m c))
              - released m (dead_consts st) c) as [|k] eqn:E; [|by exists k].
    destruct Hnd. assert (c ∈ ∅ ∪ dead_consts st) as Hin; [|set_solver].
    apply Hz. split; [done|lia].
  - intros Hc. by rewrite decide_False.
Qed.

Lemma dead_iff_count_zero_witness :
  ∃ k, use_counts (initial_state scenario_B (GetConstants scenario_B)) !! 0
       = Some (S k).
Proof.
  destruct (dead_iff_count_zero scenario_B (GetConstants scenario_B)
              (initial_state scenario_B (GetConstants scenario_B)) 0)
    as (_ & Hpos & _).
  - reflexivity.
  - apply loop_exit. vm_compute. reflexivity.
  - apply Hpos.
    + apply elem_of_GetConstants. split; [simpl; lia|reflexivity].
    + vm_compute. intros [=].
Defined.

(** X6: the pass reports "no change" exactly when every constant of the
    module has at least one counted use; it then asks nothing of the
    mutator and hands the module back as it was. *)
Theorem no_change_iff_all_used (m : Module) (o : Outcome) :
  Process_run m (Ok o) →
  (status o = SuccessWithoutChange ↔
   ∀ c, c ∈ GetConstants m → 0 < count_uses m (result_id (deref m c))) ∧
  (status o = SuccessWithoutChange →
   module_after o = m ∧ killed_defs o = [] ∧ killed_insts o = [] ∧
   dead_others o = ∅).
Proof.
  intros Hrun.
  assert (status o = SuccessWithoutChange ↔
          ∀ c, c ∈ GetConstants m → 0 < count_uses m (result_id (deref m c)))
    as Hiff.
  { split.
    - intros Hs c Hc.
      destruct (Process_run_inv m _ Hrun)
        as (st & dl & ol & [= ->] & HI & He & _).
      unfold finish in Hs; simpl in Hs. case_decide as Hdead; [|done].
      destruct (decide (count_uses m (result_id (deref m c)) = 0)) as [Hz|]; [|lia].
      pose proof (released_le_count m (dead_consts st) c).
      assert (c ∈ working_list st ∪ dead_consts st) as Hin; [|set_solver].
      apply (inv_zero _ _ HI). split; [done|lia].
    - intros Hpos. by apply (Process_run_idle m _ Hpos) in Hrun as [= ->]. }
  split; [done|]. intros Hs. pose proof (proj1 Hiff Hs) as Hpos.
  by apply (Process_run_idle m _ Hpos) in Hrun as [= ->].
Qed.

Lemma no_change_iff_all_used_witness :
  0 < count_uses scenario_B (result_id (deref scenario_B 1)).
Proof.
  refine (proj1 (proj1 (no_change_iff_all_used scenario_B
            (mkOutcome SuccessWithoutChange ∅ ∅ [] [] scenario_B) _)) _ 1 _).
  - apply Process_sound. vm_compute. reflexivity.
  - reflexivity.
  - apply elem_of_GetConstants. split; [simpl; lia|reflexivity].
Defined.

(** X7: a constant with no counted user, that is one used by annotation
    and debug instructions only or not at all, is in the dead set, whatever
    the shape of the module. *)
Theorem unused_constant_dead (m : Module) (o : Outcome) (c : nat) :
  Process_run m (Ok o) → c ∈ GetConstants m →
  (∀ user, ¬ feeds m user c) → c ∈ dead_set o.
Proof.
  intros Hrun Hc Hno%count_uses_zero.
  destruct (Process_run_inv m _ Hrun) as (st & dl & ol & [= ->] & HI & He & _).
  unfold finish; simpl.
  pose proof (released_le_count m (dead_consts st) c).
  assert (c ∈ working_list st ∪ dead_consts st) as Hin; [|set_solver].
  apply (inv_zero _ _ HI). split; [done|lia].
Qed.

Lemma unused_constant_dead_witness : 0 ∈ ({[0; 2]} : gset nat).
Proof.
  refine (unused_constant_dead scenario_D
            (mkOutcome SuccessWithChange {[0; 2]} {[1]} [2; 1] [1]
               [nop; nop; nop]) 0 _ _ _).
  - apply Process_sound. vm_compute. reflexivity.
  - apply elem_of_GetConstants. split; [simpl; lia|reflexivity].
  - intros user [Hlt Hpos]%feeds_real_uses.
    simpl in Hlt. destruct user as [|[|[|user]]]; vm_compute in Hpos; lia.
Defined.

Lemma module_after_mask m st dl ol :
  wf_module m → Inv m st →
  dl ≡ₚ elements (dead_consts st) →
  ol ≡ₚ elements (collect_dead_others m dl) →
  module_after (finish m (dead_consts st) dl ol)
  = mask (dead_consts st ∪ collect_dead_others m dl) m.
Proof.
  intros Hwf HI Hdl Hol. rewrite finish_module_wf; [|done|].
  - f_equal. apply set_eq. intros i.
    assert (i ∈ ol ↔ i ∈ collect_dead_others m dl) as Ho
      by (by rewrite Hol, elem_of_elements).
    assert (i ∈ dl ↔ i ∈ dead_consts st) as Hd
      by (by rewrite Hdl, elem_of_elements).
    rewrite !elem_of_union, !elem_of_list_to_set. tauto.
  - intros dc Hdc. rewrite Hdl in Hdc. apply elem_of_elements in Hdc.
    eapply Inv_dead_constants; [done|set_solver].
Qed.

(** X8: on a well-formed module the pass does exactly this to the
    module: the dead constants and the dead metadata become no-ops, every
    other instruction stays as it was, and no slot is added or dropped. *)
Theorem module_after_exact (m : Module) (o : Outcome) :
  wf_module m → Process_run m (Ok o) →
  module_after o = mask (dead_set o ∪ dead_others o) m ∧
  length (module_after o) = length m ∧
  ∀ i, deref (module_after o) i
       = if decide (i ∈ dead_set o ∪ dead_others o) then nop else deref m i.
Proof.
  intros Hwf Hrun.
  destruct (Process_run_inv m _ Hrun) as (st & dl & ol & [= ->] & HI & _ & Hdl & Hol).
  pose proof (module_after_mask m st dl ol Hwf HI Hdl Hol) as Hm.
  unfold finish in Hm |- *; simpl in Hm |- *. rewrite Hm.
  split_and!; [done|apply length_mask|intros i; apply deref_mask].
Qed.

Lemma module_after_exact_witness :
  <[0 := nop]> (<[3 := nop]> shared_decoration)
  = mask ({[0]} ∪ {[3]}) shared_decoration.
Proof.
  refine (proj1 (module_after_exact shared_decoration
            (mkOutcome SuccessWithChange {[0]} {[3]} [1] [3]
               (<[0 := nop]> (<[3 := nop]> shared_decoration))) _ _)).
  - apply wf_moduleb_sound. vm_compute. reflexivity.
  - apply Process_sound. vm_compute. reflexivity.
Defined.

(** X9: on a well-formed module all executions leave the same module,
    whatever the order in which constants are enumerated, instructions
    drawn and the final sets walked. *)
Theorem module_order_independent (m : Module) (o1 o2 : Outcome) :
  wf_module m → Process_run m (Ok o1) → Process_run m (Ok o2) →
  module_after o1 = module_after o2.
Proof.
  intros Hwf H1 H2.
  destruct (Process_run_inv m _ H1)
    as (st1 & dl1 & ol1 & [= ->] & HI1 & He1 & Hdl1 & Hol1).
  destruct (Process_run_inv m _ H2)
    as (st2 & dl2 & ol2 & [= ->] & HI2 & He2 & Hdl2 & Hol2).
  rewrite !module_after_mask by done.
  pose proof (final_dead_unique m st1 st2 HI1 He1 HI2 He2) as Hdead.
  rewrite (collect_dead_others_perm m dl1 dl2) by (by rewrite Hdl1, Hdl2, Hdead).
  by rewrite Hdead.
Qed.

Lemma module_order_independent_witness :
  ∃ o1 o2,
    Process_run spec_op_module (Ok o1) ∧ Process_run spec_op_module (Ok o2) ∧
    killed_defs o1 ≠ killed_defs o2 ∧ module_after o1 = module_after o2.
Proof.
  assert (∃ st, loop_along [2; 0; 1] spec_op_module
                  (initial_state spec_op_module [0; 1; 2]) = Some (Ok st)
                ∧ dead_consts st = {[0; 1; 2]})
    as (st & Hst & Hdead) by (eexists; split; vm_compute; reflexivity).
  assert (Process_run spec_op_module
            (Ok (finish spec_op_module (dead_consts st) [0; 1; 2] []))) as H1.
  { eapply (Process_ok _ [0; 1; 2]); [reflexivity|by eapply loop_along_run| |].
    - rewrite Hdead. vm_compute. exact (Permutation_rev [0; 1; 2]).
    - vm_compute. reflexivity. }
  assert (Process_run spec_op_module
            (Ok (finish spec_op_module (dead_consts st) [2; 1; 0] []))) as H2.
  { eapply (Process_ok _ [0; 1; 2]); [reflexivity|by eapply loop_along_run| |].
    - rewrite Hdead. vm_compute. reflexivity.
    - vm_compute. reflexivity. }
  do 2 eexists. split; [exact H1|]. split; [exact H2|]. split.
  - vm_compute. intros [=].
  - refine (module_order_independent spec_op_module _ _ _ H1 H2).
    apply wf_moduleb_sound. vm_compute. reflexivity.
Defined.

(** X10: on a well-formed module the pass leaves no dangling reference:
    no operand of the module it hands back names the identifier of a
    removed constant. *)
Theorem no_dangling_reference (m : Module) (o : Outcome) (u d : nat)
    (op : Operand) :
  wf_module m → Process_run m (Ok o) →
  op ∈ in_operands (deref (module_after o) u) → d ∈ dead_set o →
  is_id_use (result_id (deref m d)) op = false.
Proof.
  intros Hwf Hrun Hop Hd. apply not_true_is_false. intros Huse.
  destruct (Process_run_inv m _ Hrun)
    as (st & dl & ol & [= ->] & HI & He & Hdl & Hol).
  rewrite (module_after_mask m st dl ol Hwf HI Hdl Hol), deref_mask in Hop.
  unfold finish in Hd; simpl in Hd.
  case_decide as HuK; [by apply elem_of_nil in Hop|]. apply HuK.
  assert (u < length m) as Hlt.
  { destruct (decide (u < length m)) as [|Hge]; [done|].
    unfold deref in Hop. rewrite list_lookup_total_alt in Hop.
    rewrite (proj2 (lookup_ge_None m u)) in Hop by lia.
    by apply elem_of_nil in Hop. }
  destruct (is_metadata (opcode (deref m u))) eqn:Hmeta.
  - apply elem_of_union_r, (dead_others_of_run m st dl u Hdl).
    split_and!; [done|done|]. exists d. split; [done|]. by exists op.
  - apply elem_of_union_l.
    apply (Inv_users_dead m st d u HI); [set_solver|]. split; [done|].
    apply list_elem_of_lookup in Hop as [j Hj]. exists j.
    apply ForEachUse_spec. split; [done|]. by exists op.
Qed.

Lemma no_dangling_reference_witness :
  is_id_use (result_id (deref shared_decoration 0)) (ID 2) = false.
Proof.
  refine (no_dangling_reference shared_decoration
            (mkOutcome SuccessWithChange {[0]} {[3]} [1] [3]
               (<[0 := nop]> (<[3 := nop]> shared_decoration)))
            2 0 (ID 2) _ _ _ _).
  - apply wf_moduleb_sound. vm_compute. reflexivity.
  - apply Process_sound. vm_compute. reflexivity.
  - vm_compute. right. left.
  - vm_compute. reflexivity.
Defined.

(** X11: the pass hands back a well-formed module when it is given one,
    so that passes can follow one another. *)
Theorem wf_preserved (m : Module) (o : Outcome) :
  wf_module m → Process_run m (Ok o) → wf_module (module_after o).
Proof.
  intros Hwf Hrun.
  destruct (Process_run_inv m _ Hrun) as (st & dl & ol & [= ->] & _).
  destruct (finish_module_general m (dead_consts st) dl ol) as (K & -> & _).
  by apply wf_module_mask.
Qed.

Lemma wf_preserved_witness :
  wf_module (<[0 := nop]> (<[3 := nop]> shared_decoration)).
Proof.
  refine (wf_preserved shared_decoration
            (mkOutcome SuccessWithChange {[0]} {[3]} [1] [3]
               (<[0 := nop]> (<[3 := nop]> shared_decoration))) _ _).
  - apply wf_moduleb_sound. vm_compute. reflexivity.
  - apply Process_sound. vm_compute. reflexivity.
Defined.

(** X12: on a well-formed module the table the loop ends with is the
    table phase 1 would compute on the module handed back: a surviving
    constant holds the number of counted uses it still has there. *)
Theorem final_counts_recount (m : Module) (constants : list nat)
    (st : PassState) (dl ol : list nat) (c : nat) :
  wf_module m → constants ≡ₚ GetConstants m →
  loop_run m (initial_state m constants) (Ok st) →
  dl ≡ₚ elements (dead_consts st) →
  ol ≡ₚ elements (collect_dead_others m dl) →
  c ∈ GetConstants m → c ∉ dead_consts st →
  use_counts st !! c
  = Some (count_uses (module_after (finish m (dead_consts st) dl ol))
            (result_id (deref (module_after (finish m (dead_consts st) dl ol)) c))).
Proof.
  intros Hwf Hp Hrun Hdl Hol Hc Hnd.
  destruct (loop_run_Inv m _ _ (Inv_initial m constants Hp) Hrun)
    as (st' & [= <-] & HI & He).
  rewrite (module_after_mask m st dl ol Hwf HI Hdl Hol).
  assert (c ∉ dead_consts st ∪ collect_dead_others m dl) as HcK.
  { intros [?|Hin]%elem_of_union; [done|].
    apply collect_dead_others_spec in Hin as (_ & _ & _ & Hmeta).
    apply elem_of_GetConstants in Hc as [_ Hk].
    by rewrite (constant_not_metadata _ Hk) in Hmeta. }
  rewrite deref_mask, decide_False by done.
  rewrite (inv_counts _ _ HI), decide_True by done. f_equal.
  pose proof (count_uses_after m st
                (dead_consts st ∪ collect_dead_others m dl) c Hwf HI) as Heq.
  rewrite <- Heq; [lia|set_solver| |done].
  intros u [?|Hin]%elem_of_union; [by left|right].
  by apply collect_dead_others_spec in Hin as (_ & _ & _ & ?).
Qed.

Lemma final_counts_recount_witness :
  ∃ st, loop_along [0] shared_decoration
          (initial_state shared_decoration [0; 1]) = Some (Ok st)
        ∧ use_counts st !! 1
          = Some (count_uses (module_after (finish shared_decoration
                                              (dead_consts st) [0] [3]))
                    (result_id (deref (module_after (finish shared_decoration
                                              (dead_consts st) [0] [3])) 1))).
Proof.
  assert (∃ st, loop_along [0] shared_decoration
                  (initial_state shared_decoration [0; 1]) = Some (Ok st)
                ∧ dead_consts st = {[0]})
    as (st & Hst & Hdead) by (eexists; split; vm_compute; reflexivity).
  exists st. split; [exact Hst|].
  refine (final_counts_recount shared_decoration [0; 1] st [0] [3] 1
            _ _ _ _ _ _ _).
  - apply wf_moduleb_sound. vm_compute. reflexivity.
  - reflexivity.
  - by eapply loop_along_run.
  - rewrite Hdead. vm_compute. reflexivity.
  - vm_compute. reflexivity.
  - apply elem_of_GetConstants. split; [simpl; lia|reflexivity].
  - rewrite Hdead. vm_compute. intros [=].
Defined.



(** X14: no instruction is killed twice.  The dead constants and the
    dead metadata are disjoint, [KillInst] is handed each dead metadata
    instruction once, and on a well-formed module [KillDef] is handed
    pairwise different identifiers. *)
Theorem kills_once (m : Module) (o : Outcome) :
  Process_run m (Ok o) →
  dead_set o ## dead_others o ∧
  NoDup (killed_insts o) ∧
  (wf_module m → NoDup (killed_defs o)).
Proof.
  intros Hrun.
  destruct (Process_run_inv m _ Hrun) as (st & dl & ol & [= ->] & HI & _ & Hdl & Hol).
  unfold finish; simpl. split_and!.
  - intros d Hd Ho.
    apply collect_dead_others_spec in Ho as (_ & _ & _ & Hmeta).
    assert (d ∈ GetConstants m) as [_ Hk]%elem_of_GetConstants
      by (eapply Inv_dead_constants; [done|set_solver]).
    by rewrite (constant_not_metadata _ Hk) in Hmeta.
  - rewrite Hol. apply NoDup_elements.
  - intros [Hu Hwf].
    assert (NoDup dl) as Hnd by (rewrite Hdl; apply NoDup_elements).
    assert (∀ dc, dc ∈ dl → dc ∈ GetConstants m) as Hconst.
    { intros dc Hdc. rewrite Hdl in Hdc. apply elem_of_elements in Hdc.
      eapply Inv_dead_constants; [done|set_solver]. }
    rewrite <- (mask_empty m) at 1. rewrite kill_def_calls_wf; [|done|done|].
    + apply NoDup_fmap_2_strong; [|done]. intros x y Hx Hy Heq.
      apply Hu; [by eapply GetConstants_lt, Hconst
                |by eapply GetConstants_lt, Hconst|done|].
      by apply Hwf, Hconst.
    + intros dc Hdc. split_and!; [by eapply GetConstants_lt, Hconst| |set_solver].
      by apply Hwf, Hconst.
Qed.

Lemma kills_once_witness :
  ({[0; 2]} : gset nat) ## ({[1]} : gset nat) ∧ NoDup [1].
Proof.
  destruct (kills_once scenario_D
              (mkOutcome SuccessWithChange {[0; 2]} {[1]} [2; 1] [1]
                 [nop; nop; nop])) as (Hdisj & Hnd & _).
  - apply Process_sound. vm_compute. reflexivity.
  - split; [exact Hdisj|exact Hnd].
Defined.

(** X15: the invariant of the table.  In every state the loop reaches,
    the count of a constant is its phase-1 count less the identifier
    operands of the dead propagating instructions that resolve to it, and
    no more has been taken off than was counted. *)
Theorem count_invariant (m : Module) (constants : list nat) (n : nat)
    (st : PassState) (c : nat) :
  constants ≡ₚ GetConstants m →
  loop_steps m n (initial_state m constants) st →
  c ∈ GetConstants m →
  use_counts st !! c
  = Some (count_uses m (result_id (deref m c)) - released m (dead_consts st) c)
  ∧ released m (dead_consts st) c ≤ count_uses m (result_id (deref m c)).
Proof.
  intros Hp Hsteps Hc.
  destruct (reachable_Inv m constants n st Hp Hsteps) as [HI _].
  split; [|apply released_le_count].
  by rewrite (inv_counts _ _ HI), decide_True.
Qed.

Lemma count_invariant_witness :
  ∃ st, loop_body scenario_C
          (initial_state scenario_C (GetConstants scenario_C)) 1 = Ok st
        ∧ use_counts st !! 0 = Some (1 - 1).
Proof.
  assert (∃ st, loop_body scenario_C
                  (initial_state scenario_C (GetConstants scenario_C)) 1 = Ok st
                ∧ dead_consts st = {[1]}) as (st & Hbody & Hdead).
  { eexists. split; vm_compute; reflexivity. }
  exists st. split; [exact Hbody|].
  destruct (count_invariant scenario_C (GetConstants scenario_C) 1 st 0)
    as [Hcount _].
  - reflexivity.
  - eapply steps_succ; [|exact Hbody|apply steps_zero].
    vm_compute. reflexivity.
  - apply elem_of_GetConstants. split; [simpl; lia|reflexivity].
  - rewrite Hdead in Hcount. exact Hcount.
Defined.

(** X16: what the pass computes.  The dead set is the least set of
    instructions that contains every constant all of whose counted uses
    are identifier operands of propagating members of the set. *)
Theorem dead_set_least_closed (m : Module) (o : Outcome) :
  Process_run m (Ok o) →
  closed m (dead_set o) ∧ ∀ S, closed m S → dead_set o ⊆ S.
Proof.
  intros Hrun.
  destruct (Process_run_inv m _ Hrun) as (st & dl & ol & [= ->] & HI & He & _).
  unfold finish; simpl. split.
  - by apply final_dead_closed.
  - intros S HS. pose proof (inv_least _ _ HI S HS). set_solver.
Qed.

Lemma dead_set_least_closed_witness : closed scenario_C {[0; 1]}.
Proof.
  refine (proj1 (dead_set_least_closed scenario_C
            (mkOutcome SuccessWithChange {[0; 1]} ∅ [2; 1] [] [nop; nop]) _)).
  apply Process_sound. vm_compute. reflexivity.
Defined.
